(** * The pleasure-js API client, embedded and checked against its specification

    The development follows the layout of the sources:

    - [JS]: the fragment of JavaScript values and completions the client
      manipulates (truthiness, [typeof], string conversion, promises);
    - [Proxy]: [src/api-proxy.js], the path compiler [pathsToUrl], the
      terminal compilation [deliverState] and the two traps of [handler];
    - [Cache]: the cache-hook pipeline of [src/api-client.js]
      ([Promise.each], [proxyCacheReq], [proxyCacheRes], [driver]);
    - [Client]: the realtime client of [src/lib/redux-client.js] and the
      credential state machine of [src/api-client.js].

Definitions come first, the statements about them afterwards. *)

From Stdlib Require Import String Ascii List NArith ZArith Bool Lia DecimalString.
Import ListNotations.
Open Scope string_scope.
Set Warnings "-register-all".

(* ================================================================== *)
(** * JavaScript values *)
(* ================================================================== *)

Module JS.

(** Values that travel through the client: JSON-like data, [undefined] and
    opaque callables.  Numbers are the integers (printed in decimal, as
    JavaScript does below 10^21); a callable carries the text its
    [toString] gives. *)
Inductive value : Type :=
| VUndefined
| VNull
| VBool (b : bool)
| VNum (n : Z)
| VStr (s : string)
| VObj (fields : list (string * value))
| VArr (items : list value)
| VFunction (src : string).

Inductive jstype : Type :=
| TUndefined | TObject | TBoolean | TNumber | TString | TFunction.

(** [typeof v]; note [typeof null === 'object']. *)
Definition typeof (v : value) : jstype :=
  match v with
  | VUndefined => TUndefined
  | VNull | VObj _ | VArr _ => TObject
  | VBool _ => TBoolean
  | VNum _ => TNumber
  | VStr _ => TString
  | VFunction _ => TFunction
  end.

Definition is_object (v : value) : bool :=
  match typeof v with TObject => true | _ => false end.

Definition is_undefined (v : value) : bool :=
  match v with VUndefined => true | _ => false end.

(** [ToBoolean]: what [!v] and [v || w] test. *)
Definition truthy (v : value) : bool :=
  match v with
  | VUndefined | VNull => false
  | VBool b => b
  | VNum n => negb (n =? 0)%Z
  | VStr s => negb (s =? "")
  | VObj _ | VArr _ | VFunction _ => true
  end.

(** [a || b]. *)
Definition or_else (a b : value) : value := if truthy a then a else b.

(** [ToString]. An array prints its elements separated by commas, holes
    for [undefined] and [null]. *)
Fixpoint ToString (v : value) : string :=
  match v with
  | VUndefined => "undefined"
  | VNull => "null"
  | VBool true => "true"
  | VBool false => "false"
  | VNum n => NilZero.string_of_int (Z.to_int n)
  | VStr s => s
  | VObj _ => "[object Object]"
  | VArr l =>
      (fix items (l : list value) (first : bool) : string :=
         match l with
         | [] => ""
         | x :: xs =>
             (if first then "" else ",")
             ++ match x with
                | VUndefined | VNull => ""
                | _ => ToString x
                end
             ++ items xs false
         end) l true
  | VFunction src => src
  end.

(** One element of [Array.prototype.join]. *)
Definition join_element (v : value) : string :=
  match v with
  | VUndefined | VNull => ""
  | _ => ToString v
  end.

(** [Array.prototype.join] as the language defines it: a result string
    [R] grown from index [k = 0], the separator added before every
    element but the first. *)
Fixpoint join_loop (sep R : string) (k : nat) (rest : list value) : string :=
  match rest with
  | [] => R
  | x :: xs =>
      join_loop sep ((if Nat.eqb k 0 then R else R ++ sep) ++ join_element x)
                (S k) xs
  end.

Definition Array_join (arr : list value) (sep : string) : string :=
  join_loop sep "" 0 arr.

(** What a [throw] carries. *)
Inductive exn : Type :=
| Error (msg : string)
| TypeError (msg : string)
| InvalidTokenError (msg : string).

(** The completion of a synchronous call. *)
Inductive completion (A : Type) : Type :=
| Normal (a : A)
| Throw (e : exn).
Arguments Normal {A} a.
Arguments Throw {A} e.

(** The fate of a promise: it resolves, it rejects, or it never settles. *)
Inductive outcome (A : Type) : Type :=
| Resolved (a : A)
| Rejected (e : exn)
| Pending.
Arguments Resolved {A} a.
Arguments Rejected {A} e.
Arguments Pending {A}.

End JS.
Import JS.

(** [lodash/kebabCase] is a dependency, not code of the client. *)
Class Lodash : Type := { kebabCase : string -> string }.

(* ================================================================== *)
(** * src/api-proxy.js *)
(* ================================================================== *)

Module Proxy.

(** An element of [paths]: a property name pushed by the [get] trap (a
    string; symbols are left out), or the wrapper [{ value: query }]
    pushed by [crudProxy]. *)
Inductive segment : Type :=
| Ident (prop : string)
| Literal (value : JS.value).

Inductive verb : Type := GET | POST | PATCH | DELETE.

(** The object [deliverState] returns. *)
Record Descriptor : Type := mkDescriptor {
  url : string;
  method : verb;
  get : value;
  body : value
}.

(** The second argument of [deliverState]; a field left out is
    [undefined] ([None] for the verb). *)
Record Options : Type := mkOptions {
  opt_body : value;
  opt_query : value;
  opt_method : option verb
}.

(** A destructuring default [x = {}]. *)
Definition default_object (v : value) : value :=
  if is_undefined v then VObj [] else v.

Section Compiler.
Context `{Lodash}.

Definition pathsToUrl (paths : list segment) : string :=
  "/" ++ Array_join
           (map (fun path =>
                   match path with
                   | Literal v => v
                   | Ident p => VStr (kebabCase p)
                   end) paths)
           "/".

(** [deliverState]: the new content of [state.paths] and the
    descriptor. *)
Definition deliverState (paths : list segment) (o : Options)
  : list segment * Descriptor :=
  let url := pathsToUrl paths in
  ([], {| url := url;
          method := match opt_method o with Some m => m | None => GET end;
          get := default_object (opt_query o);
          body := default_object (opt_body o) |}).
End Compiler.

(** A [crudProxy] function object. Every proxy of a chain holds the one
    [paths] array of its root, kept in the store below; what differs from
    one to the next is the own property [get], absent on a root made with
    the default [state = {}]. *)
Record ProxyObj : Type := mkProxy { own_get : option value }.

Definition root : ProxyObj := {| own_get := None |}.

(** The [this] of a call: an object of the chain (a proxy or its target,
    whose [paths] is the shared array), or [undefined] for a bare call. *)
Inductive receiver : Type := ThisChain | ThisUndefined.

Definition ownProperties (obj : ProxyObj) : list string :=
  (["methodCallback"; "valueOf"; "toString"; "then"; "create"; "update";
    "delete"; "paths"; "length"; "name"; "prototype"]
   ++ match own_get obj with Some _ => ["get"] | None => [] end)%list.

Definition hasOwnProperty (obj : ProxyObj) (prop : string) : bool :=
  existsb (String.eqb prop) (ownProperties obj).

(** The callable a [get] trap hands back, seen as a value. *)
Definition proxy_value : value := VFunction "function () { [native code] }".

Section Handler.
Context `{Lodash}.
(** What lies outside the proxy and is changed by [next] and
    [methodCallback]. *)
Variable W : Type.
(** What [next] returns. *)
Variable R : Type.
Variable next : Descriptor -> W -> W * R.
Variable methodCallback : segment -> list value -> W -> W * completion value.

Record Store : Type := mkStore { paths : list segment; world : W }.

Definition fresh (w : W) : Store := {| paths := []; world := w |}.

(** [crudProxy (query = {})], called with [this] and [args]. *)
Definition crudProxy (this : receiver) (args : list value)
           (ps : list segment) : list segment * completion ProxyObj :=
  let query := default_object (hd VUndefined args) in
  match this with
  | ThisUndefined =>
      (ps, Throw (TypeError "Cannot read property 'paths' of undefined"))
  | ThisChain =>
      if is_object query
      then (ps, Normal {| own_get := Some query |})
      else ((ps ++ [Literal query])%list, Normal {| own_get := Some (VObj []) |})
  end.

Inductive GetResult : Type :=
| OwnValue (prop : string)
| Chained (p : ProxyObj).

(** [handler.get]. [obj.call(obj)] cannot throw: [this] is the target
    and the query defaults to [{}]. *)
Definition handler_get (obj : ProxyObj) (prop : string) (st : Store)
  : Store * GetResult :=
  if hasOwnProperty obj prop then (st, OwnValue prop)
  else
    let ps := (paths st ++ [Ident prop])%list in
    ({| paths := ps; world := world st |},
     Chained {| own_get := Some (VObj []) |}).

Inductive ApplyResult : Type :=
| Returned (v : value)
| Continued (p : ProxyObj)
| Raised (e : exn).

(** The tail of [handler.apply], after the [if]:
    [target.get = args; return target.apply(thisArg, args)].
    The target comes back with its new [get]. *)
Definition apply_tail (thisArg : receiver) (args : list value) (st : Store)
  : Store * ProxyObj * ApplyResult :=
  let target' := {| own_get := Some (VArr args) |} in
  match crudProxy thisArg args (paths st) with
  | (ps, Normal p) => ({| paths := ps; world := world st |}, target', Continued p)
  | (ps, Throw e) => ({| paths := ps; world := world st |}, target', Raised e)
  end.

(** [handler.apply]. *)
Definition handler_apply (target : ProxyObj) (thisArg : receiver)
           (args : list value) (st : Store)
  : Store * ProxyObj * ApplyResult :=
  match paths st with
  | [method] =>
      (* target.paths.length = 0 *)
      let (w', res) := methodCallback method args (world st) in
      match res with
      | Throw e => ({| paths := []; world := w' |}, target, Raised e)
      | Normal v =>
          if is_undefined v
          then apply_tail thisArg args {| paths := ([] ++ [method])%list; world := w' |}
          else ({| paths := []; world := w' |}, target, Returned v)
      end
  | _ => apply_tail thisArg args st
  end.

(** Reading [this.get] where [this] is a proxy of the chain: the own
    property if there is one, otherwise the [get] trap takes ["get"]
    for one more segment. *)
Definition this_get (this : ProxyObj) (ps : list segment)
  : list segment * value :=
  match own_get this with
  | Some q => (ps, q)
  | None => ((ps ++ [Ident "get"])%list, proxy_value)
  end.

(** What a terminal action gives: the descriptor it compiled and, when
    it was handed to [next], the answer. *)
Inductive Compiled : Type :=
| Sent (d : Descriptor) (r : R)
| Plain (d : Descriptor)
| Failed (e : exn).

Definition send (ps : list segment) (o : Options) (w : W) : Store * Compiled :=
  let (ps', d) := deliverState ps o in
  let (w', r) := next d w in
  ({| paths := ps'; world := w' |}, Sent d r).

(** [crudProxy.create]. *)
Definition create (this : ProxyObj) (body : value) (st : Store)
  : Store * Compiled :=
  send (paths st)
       {| opt_body := body; opt_query := VUndefined; opt_method := Some POST |}
       (world st).

(** [crudProxy.update]. *)
Definition update (this : ProxyObj) (body : value) (st : Store)
  : Store * Compiled :=
  let (ps, q) := this_get this (paths st) in
  send ps {| opt_body := body; opt_query := q; opt_method := Some PATCH |}
       (world st).

(** [crudProxy.delete]. *)
Definition delete (this : ProxyObj) (arguments : list value) (st : Store)
  : Store * Compiled :=
  if Nat.ltb 0 (length arguments)
  then (st, Failed (Error "Method delete does not take any arguments"))
  else
    let (ps, q) := this_get this (paths st) in
    send ps {| opt_body := VUndefined; opt_query := q; opt_method := Some DELETE |}
         (world st).

(** [crudProxy.valueOf] (and [toString]), called on a proxy. *)
Definition valueOf (this : ProxyObj) (st : Store) : Store * Compiled :=
  let (ps, q) := this_get this (paths st) in
  let (ps', d) :=
    deliverState ps {| opt_body := VUndefined; opt_query := q; opt_method := None |} in
  ({| paths := ps'; world := world st |}, Plain d).

(** [crudProxy.then]: [valueOf] runs on the target itself, so [get] is
    read without the trap; [fn] receives what [next] returns. *)
Definition then_ (target : ProxyObj) (st : Store) : Store * Compiled :=
  let q := match own_get target with Some q => q | None => VUndefined end in
  send (paths st)
       {| opt_body := VUndefined; opt_query := q; opt_method := None |}
       (world st).

(** ** Chains

    An expression such as [proxy.entities.user('id').delete()] is a
    list of steps on the root followed by a terminal action. *)
Inductive step : Type :=
| Access (prop : string)
| Invoke (args : list value).

Inductive action : Type :=
| Create (body : value)
| Update (body : value)
| Delete (args : list value)
| ValueOf
| Await.

Inductive ChainResult : Type :=
| Built (p : ProxyObj) (this : receiver)
| Abandoned (v : value)
| OwnProperty (prop : string)
| Broken (e : exn).

(** [this] of the next invocation: the proxy a property was read from,
    or nothing when the callee is itself the result of a call. *)
Fixpoint run_steps (steps : list step) (cur : ProxyObj) (this : receiver)
         (st : Store) : Store * ChainResult :=
  match steps with
  | [] => (st, Built cur this)
  | Access prop :: rest =>
      match handler_get cur prop st with
      | (st', OwnValue p) => (st', OwnProperty p)
      | (st', Chained q) => run_steps rest q ThisChain st'
      end
  | Invoke args :: rest =>
      match handler_apply cur this args st with
      | (st', _, Returned v) => (st', Abandoned v)
      | (st', _, Raised e) => (st', Broken e)
      | (st', _, Continued q) => run_steps rest q ThisUndefined st'
      end
  end.

Definition run_action (a : action) (p : ProxyObj) (st : Store)
  : Store * Compiled :=
  match a with
  | Create b => create p b st
  | Update b => update p b st
  | Delete args => delete p args st
  | ValueOf => valueOf p st
  | Await => then_ p st
  end.

(** A whole chain from the root proxy; [None] when the steps did not
    end on a proxy. *)
Definition run_chain (steps : list step) (a : action) (st : Store)
  : Store * option Compiled :=
  match run_steps steps root ThisUndefined st with
  | (st', Built p _) =>
      let (st'', c) := run_action a p st' in (st'', Some c)
  | (st', _) => (st', None)
  end.
End Handler.

Arguments mkStore {W} _ _.
Arguments paths {W} _.
Arguments world {W} _.
Arguments fresh {W} _.
Arguments handler_get {W} _ _ _.
Arguments apply_tail {W} _ _ _.
Arguments handler_apply {W} _ _ _ _ _.
Arguments send {_ W R} _ _ _ _.
Arguments create {_ W R} _ _ _ _.
Arguments update {_ W R} _ _ _ _.
Arguments delete {_ W R} _ _ _ _.
Arguments valueOf {_ W R} _ _.
Arguments then_ {_ W R} _ _ _.
Arguments run_steps {W} _ _ _ _ _.
Arguments run_action {_ W R} _ _ _ _.
Arguments run_chain {_ W R} _ _ _ _ _.
Arguments Sent {R} _ _.
Arguments Plain {R} _.
Arguments Failed {R} _.

(** The defaults of [ApiProxy]: [next = r => r] and
    [methodCallback = r => r], the latter returning its argument
    [{ method, args }]. *)
Definition default_next {W : Type} (d : Descriptor) (w : W) : W * Descriptor :=
  (w, d).

Definition segment_value (s : segment) : value :=
  match s with
  | Ident p => VStr p
  | Literal v => VObj [("value", v)]
  end.

Definition default_methodCallback {W : Type} (m : segment) (args : list value)
           (w : W) : W * completion value :=
  (w, Normal (VObj [("method", segment_value m); ("args", VArr args)])).

(** ** The specification's words

    The definitions below say what the specification says, to be compared
    with the code above. *)

Section Compile.
Context `{Lodash}.

(** The token of a segment as the specification words it: the raw
    value of a literal, the kebab-cased name of an identifier. *)
Definition spec_token (s : segment) : string :=
  match s with
  | Literal v => join_element v
  | Ident name => kebabCase name
  end.

(** [compile] of the specification: the tokens joined by [/] behind one
    leading [/]. *)
Definition spec_compile (segments : list segment) : string :=
  "/" ++ String.concat "/" (map spec_token segments).
End Compile.

(** An action that compiles: anything but [delete] with arguments. *)
Definition compiling (a : action) : bool :=
  match a with
  | Delete (_ :: _) => false
  | _ => true
  end.

End Proxy.

(* ================================================================== *)
(** * src/api-client.js: the cache pipeline *)
(* ================================================================== *)

Module Cache.

(** What the run of a request leaves behind, in order: hook [i] of
    [_cache] had its [req] or [res] handler called, the transport
    [_driver] was called, [console.log] printed a failed observation. *)
Inductive event : Type :=
| ReqCalled (i : nat)
| TransportCalled
| ResCalled (i : nat)
| Logged (e : exn).

Section Pipeline.
(** What the hooks and the transport act on (a cache, the server). *)
Variable W : Type.
(** The request object handed to axios, and its fingerprint. *)
Variables Request Id : Type.
Variable objectHash : Request -> Id.
(** [if (req.params) req.params = queryParamEncode(req.params)]. *)
Variable encodeParams : Request -> Request.

(** A handler may be [async] or not, return, throw or never settle;
    awaited, it is an outcome. *)
Record CacheHook : Type := mkHook {
  req : Id -> Request -> W -> W * outcome value;
  res : Id -> Request -> value -> W -> W * outcome value
}.

Record Sys : Type := mkSys { world : W; trace : list event }.

Definition log (e : event) (s : Sys) : Sys :=
  {| world := world s; trace := (trace s ++ [e])%list |}.

(** [Promise.each]: [for (const item of arr) await fn(item)].  What
    [fn] resolves to is dropped; the loop ends early only when an
    [await] does not resolve. *)
Fixpoint Promise_each {A S : Type} (arr : list A)
         (fn : A -> S -> S * outcome value) (s : S) : S * outcome unit :=
  match arr with
  | [] => (s, Resolved tt)
  | item :: rest =>
      match fn item s with
      | (s', Resolved _) => Promise_each rest fn s'
      | (s', Rejected e) => (s', Rejected e)
      | (s', Pending) => (s', Pending)
      end
  end.

(** The hooks of [this._cache] with their positions. *)
Definition indexed (cache : list CacheHook) : list (nat * CacheHook) :=
  combine (seq 0 (length cache)) cache.

(** The callback of [proxyCacheReq]; the local [res] is carried beside
    the system. *)
Definition req_callback (id : Id) (r : Request) (ih : nat * CacheHook)
           (st : Sys * value) : (Sys * value) * outcome value :=
  let (i, CacheHook) := ih in
  let (s, res0) := st in
  let s1 := log (ReqCalled i) s in
  match req CacheHook id r (world s1) with
  | (w, Resolved v) =>
      ({| world := w; trace := trace s1 |}, v,
       Resolved (if is_undefined v then VUndefined else VBool false))
  | (w, Rejected e) => ({| world := w; trace := trace s1 |}, res0, Rejected e)
  | (w, Pending) => ({| world := w; trace := trace s1 |}, res0, Pending)
  end.

Definition proxyCacheReq (cache : list CacheHook) (id : Id) (r : Request)
           (s : Sys) : Sys * outcome value :=
  match Promise_each (indexed cache) (req_callback id r) (s, VUndefined) with
  | (s', res, Resolved _) => (s', Resolved res)
  | (s', _, Rejected e) => (s', Rejected e)
  | (s', _, Pending) => (s', Pending)
  end.

Definition res_callback (id : Id) (r : Request) (response : value)
           (ih : nat * CacheHook) (s : Sys) : Sys * outcome value :=
  let (i, CacheHook) := ih in
  let s1 := log (ResCalled i) s in
  match res CacheHook id r response (world s1) with
  | (w, Resolved _) => ({| world := w; trace := trace s1 |}, Resolved VUndefined)
  | (w, Rejected e) => ({| world := w; trace := trace s1 |}, Rejected e)
  | (w, Pending) => ({| world := w; trace := trace s1 |}, Pending)
  end.

Definition proxyCacheRes (cache : list CacheHook) (id : Id) (r : Request)
           (response : value) (s : Sys) : Sys * outcome value :=
  match Promise_each (indexed cache) (res_callback id r response) s with
  | (s', Resolved _) => (s', Resolved response)
  | (s', Rejected e) => (s', Rejected e)
  | (s', Pending) => (s', Pending)
  end.

(** [.catch(err => console.log(`Proxy cache res error:`, err))] on a
    promise nobody awaits: only the system remains. *)
Definition catch_log (p : Sys * outcome value) : Sys :=
  match p with
  | (s, Rejected e) => log (Logged e) s
  | (s, _) => s
  end.

(** [driver].  The outcome is what the caller's [await] sees.  The
    observation pass is started and not awaited: its outcome enters
    nowhere in the result, and the system returned is the one reached
    when the pass has gone as far as it goes. *)
Definition driver (cache : list CacheHook)
           (_driver : Request -> W -> W * outcome value)
           (r : Request) (s : Sys) : Sys * outcome value :=
  let id := objectHash r in
  match proxyCacheReq cache id r s with
  | (s1, Rejected e) => (s1, Rejected e)
  | (s1, Pending) => (s1, Pending)
  | (s1, Resolved cached) =>
      let r' := encodeParams r in
      if negb (is_undefined cached) then (s1, Resolved cached)
      else
        let s2 := log TransportCalled s1 in
        match _driver r' (world s2) with
        | (w, Rejected e) => ({| world := w; trace := trace s2 |}, Rejected e)
        | (w, Pending) => ({| world := w; trace := trace s2 |}, Pending)
        | (w, Resolved response) =>
            let s3 := {| world := w; trace := trace s2 |} in
            (catch_log (proxyCacheRes cache id r' response s3),
             Resolved response)
        end
  end.
End Pipeline.

Arguments mkHook {W Request Id} _ _.
Arguments req {W Request Id} _ _ _ _.
Arguments res {W Request Id} _ _ _ _ _.
Arguments mkSys {W} _ _.
Arguments world {W} _.
Arguments trace {W} _.
Arguments log {W} _ _.
Arguments Promise_each {A S} _ _ _.
Arguments indexed {W Request Id} _.
Arguments proxyCacheReq {W Request Id} _ _ _ _.
Arguments proxyCacheRes {W Request Id} _ _ _ _ _.
Arguments catch_log {W} _.
Arguments driver {W Request Id} _ _ _ _ _ _.

(** ** The specification's words *)

Section Observed.
Variables W Request Id : Type.

(** What the observation pass leaves, said directly: the hooks from
    position [i] on have their [res] handler called one after the other
    until one does not resolve; a rejection is logged. *)
Fixpoint observed (id : Id) (r : Request) (response : value)
         (cache : list (CacheHook W Request Id)) (i : nat) (w : W)
  : W * list event :=
  match cache with
  | [] => (w, [])
  | h :: rest =>
      match res h id r response w with
      | (w', Resolved _) =>
          let (w'', evs) := observed id r response rest (S i) w' in
          (w'', ResCalled i :: evs)
      | (w', Rejected e) => (w', [ResCalled i; Logged e])
      | (w', Pending) => (w', [ResCalled i])
      end
  end.
End Observed.

Arguments observed {W Request Id} _ _ _ _ _ _.

End Cache.

(* ================================================================== *)
(** * src/lib/redux-client.js and the session of src/api-client.js *)
(* ================================================================== *)

(** [jwt-decode] is a dependency: a token decodes to a profile or the
    decoder throws; [sessionExpires] reads the claim of that name, absent
    from some profiles. *)
Class Jwt : Type := {
  Profile : Type;
  jwtDecode : string -> completion Profile;
  sessionExpires : Profile -> option Z
}.

Module Client.

(** The client is taken with [debug()] off, so nothing is printed on the
    way.  Listeners of the [EventEmitter] are not run: what [emit] is
    given is kept in [events]. *)

(** A token is [null] or a string. *)
Definition token : Type := option string.

Definition token_eqb (a b : token) : bool :=
  match a, b with
  | None, None => true
  | Some x, Some y => String.eqb x y
  | _, _ => false
  end.

(** [!!t]: [null] and the empty string are falsy. *)
Definition truthy_token (t : token) : bool :=
  match t with
  | Some s => negb (s =? "")
  | None => false
  end.

(** What happens to sockets: [_unwireSocket], [disconnect(true)],
    [io(host, auth)] with the bearer header it carries, [_wireSocket]. *)
Inductive socket_effect : Type :=
| Unwired (id : nat)
| Disconnected (id : nat)
| Opened (id : nat) (authorization : option string)
| Wired (id : nat).

Inductive timer : Type :=
| NoTimer
| Armed (delay : option Z).

Section State.
Context `{Jwt}.

(** [emit(name, payload)] of the [EventEmitter] the client extends. *)
Inductive emitted : Type :=
| Emit (name : string) (payload : option Profile).

(** The fields of [ReduxClient]; [sockets] and [events] record what
    was done to sockets and what was emitted, oldest first. *)
Record ReduxClient : Type := mkRedux {
  _token : token;
  _isConnected : bool;
  _isConnecting : bool;
  _connectedAuth : token;
  _socket : option nat;
  sockets : list socket_effect;
  events : list emitted
}.

(** The fields [ApiClient] adds. [Authorization] is
    [_driver.defaults.headers.common['Authorization']]; [persist] is
    [_storeCredentials && process.client] and [storage] the item kept
    under [_credentialsStorageName]. *)
Record ApiClient : Type := mkClient {
  super : ReduxClient;
  _accessToken : token;
  _refreshToken : token;
  _userProfile : option Profile;
  _daemonSessionExpired : timer;
  Authorization : option string;
  persist : bool;
  storage : option (token * token)
}.

(** ** ReduxClient *)

Definition emit (name : string) (payload : option Profile)
           (r : ReduxClient) : ReduxClient :=
  {| _token := _token r; _isConnected := _isConnected r;
     _isConnecting := _isConnecting r; _connectedAuth := _connectedAuth r;
     _socket := _socket r; sockets := sockets r;
     events := (events r ++ [Emit name payload])%list |}.

(** [connect]. A new socket takes the next unused number. *)
Definition connect (r : ReduxClient) : ReduxClient :=
  if token_eqb (_connectedAuth r) (_token r)
     && (_isConnected r || _isConnecting r)
  then r
  else
    let auth :=
      if truthy_token (_token r)
      then match _token r with
           | Some t => Some ("Bearer " ++ t)
           | None => None
           end
      else None in
    let torn :=
      match _socket r with
      | Some s => (sockets r ++ [Unwired s; Disconnected s])%list
      | None => sockets r
      end in
    let theSocket := length (sockets r) in
    {| _token := _token r; _isConnected := false; _isConnecting := true;
       _connectedAuth := _token r; _socket := Some theSocket;
       sockets := (torn ++ [Opened theSocket auth; Wired theSocket])%list;
       events := events r |}.

(** The handlers wired to the socket. *)
Definition _connect (r : ReduxClient) : ReduxClient :=
  emit "connect" None
       {| _token := _token r; _isConnected := true; _isConnecting := false;
          _connectedAuth := _connectedAuth r; _socket := _socket r;
          sockets := sockets r; events := events r |}.

Definition _disconnect (r : ReduxClient) : ReduxClient :=
  emit "disconnect" None
       {| _token := _token r; _isConnected := false;
          _isConnecting := _isConnecting r;
          _connectedAuth := _connectedAuth r; _socket := _socket r;
          sockets := sockets r; events := events r |}.

Definition _error (r : ReduxClient) : ReduxClient :=
  emit "error" None
       {| _token := _token r; _isConnected := _isConnected r;
          _isConnecting := false;
          _connectedAuth := _connectedAuth r; _socket := _socket r;
          sockets := sockets r; events := events r |}.

(** [set token (v)]. *)
Definition set_token (v : token) (r : ReduxClient) : ReduxClient :=
  let r1 := {| _token := v; _isConnected := _isConnected r;
               _isConnecting := _isConnecting r;
               _connectedAuth := _connectedAuth r; _socket := _socket r;
               sockets := sockets r; events := events r |} in
  if _isConnected r1 then connect r1 else r1.

(** The state the constructor of [ReduxClient] leaves. *)
Definition new_ReduxClient : ReduxClient :=
  {| _token := None; _isConnected := false; _isConnecting := false;
     _connectedAuth := None; _socket := None; sockets := []; events := [] |}.

(** ** Field updates of ApiClient *)

Definition with_super (f : ReduxClient -> ReduxClient) (c : ApiClient)
  : ApiClient :=
  {| super := f (super c); _accessToken := _accessToken c;
     _refreshToken := _refreshToken c; _userProfile := _userProfile c;
     _daemonSessionExpired := _daemonSessionExpired c;
     Authorization := Authorization c; persist := persist c;
     storage := storage c |}.

Definition with_credentials (a r : token) (c : ApiClient) : ApiClient :=
  {| super := super c; _accessToken := a; _refreshToken := r;
     _userProfile := _userProfile c;
     _daemonSessionExpired := _daemonSessionExpired c;
     Authorization := Authorization c; persist := persist c;
     storage := storage c |}.

Definition with_userProfile (p : option Profile) (c : ApiClient) : ApiClient :=
  {| super := super c; _accessToken := _accessToken c;
     _refreshToken := _refreshToken c; _userProfile := p;
     _daemonSessionExpired := _daemonSessionExpired c;
     Authorization := Authorization c; persist := persist c;
     storage := storage c |}.

Definition with_timer (t : timer) (c : ApiClient) : ApiClient :=
  {| super := super c; _accessToken := _accessToken c;
     _refreshToken := _refreshToken c; _userProfile := _userProfile c;
     _daemonSessionExpired := t;
     Authorization := Authorization c; persist := persist c;
     storage := storage c |}.

Definition with_Authorization (h : option string) (c : ApiClient) : ApiClient :=
  {| super := super c; _accessToken := _accessToken c;
     _refreshToken := _refreshToken c; _userProfile := _userProfile c;
     _daemonSessionExpired := _daemonSessionExpired c;
     Authorization := h; persist := persist c;
     storage := storage c |}.

Definition with_storage (s : option (token * token)) (c : ApiClient) : ApiClient :=
  {| super := super c; _accessToken := _accessToken c;
     _refreshToken := _refreshToken c; _userProfile := _userProfile c;
     _daemonSessionExpired := _daemonSessionExpired c;
     Authorization := Authorization c; persist := persist c;
     storage := s |}.

(** ** The credential state machine

    [setCredentials], [_refreshCredentials], [_sessionBeat] and
    [_localLogout] call one another; the cycle is cut by a bound on the
    depth of calls, [None] when it is exceeded. *)
Definition Run (A : Type) : Type := option (ApiClient * completion A).

Definition ret {A : Type} (a : A) (c : ApiClient) : Run A :=
  Some (c, Normal a).

Definition bind {A B : Type} (m : ApiClient -> Run A)
           (k : A -> ApiClient -> Run B) (c : ApiClient) : Run B :=
  match m c with
  | None => None
  | Some (c', Throw e) => Some (c', Throw e)
  | Some (c', Normal a) => k a c'
  end.

(** The argument [{ accessToken = null, refreshToken = null } = {}]:
    a field left out, [undefined] or [null] is [None]. *)
Record Credentials : Type := mkCredentials {
  accessToken : token;
  refreshToken : token
}.

Definition no_credentials : Credentials :=
  {| accessToken := None; refreshToken := None |}.

Section Beat.
(** [Date.now()]. *)
Variable now : Z.
(** The callee at the bottom of the cycle. *)
Variable setCredentials : Credentials -> ApiClient -> Run unit.

Definition _localLogout (c : ApiClient) : Run unit :=
  if negb (truthy_token (_accessToken c)) then ret tt c
  else
    let user := _userProfile c in
    bind (setCredentials no_credentials)
         (fun _ c' => ret tt (with_super (emit "logout" user) c')) c.

Definition expired (p : Profile) : bool :=
  match sessionExpires p with
  | Some t => (t <=? now)%Z
  | None => false
  end.

(** [Math.round((sessionExpires - Date.now()) * .75)]; the [1000]
    that follows it in the source is a third argument of
    [setTimeout], not a bound on the delay. *)
Definition beat_delay (p : Profile) : option Z :=
  match sessionExpires p with
  | Some t => Some ((3 * (t - now) + 2) / 4)%Z
  | None => None
  end.

Definition _sessionBeat (c : ApiClient) : Run unit :=
  let c0 := with_timer NoTimer c in
  match truthy_token (_accessToken c0), _userProfile c0 with
  | true, Some p =>
      if expired p then _localLogout c0
      else ret tt (with_timer (Armed (beat_delay p)) c0)
  | _, _ => _localLogout c0
  end.

Definition decode (t : token) : completion (option Profile) :=
  match t with
  | Some s =>
      if truthy_token t
      then match jwtDecode s with
           | Normal p => Normal (Some p)
           | Throw e => Throw e
           end
      else Normal None
  | None => Normal None
  end.

Definition _refreshCredentials (c : ApiClient) : Run unit :=
  let c1 := with_super (set_token (_accessToken c)) c in
  match decode (_accessToken c1) with
  | Throw e => Some (c1, Throw e)
  | Normal p =>
      bind _sessionBeat
           (fun _ c3 =>
              match _accessToken c3 with
              | Some t =>
                  if truthy_token (_accessToken c3)
                  then
                    let c4 := with_Authorization (Some ("Bearer " ++ t)) c3 in
                    ret tt (with_super (emit "login" (_userProfile c4)) c4)
                  else ret tt (with_Authorization None c3)
              | None => ret tt (with_Authorization None c3)
              end)
           (with_userProfile p c1)
  end.

Definition setCredentials_body (a : Credentials) (c : ApiClient) : Run unit :=
  let c1 :=
    if persist c
    then with_storage (Some (accessToken a, refreshToken a)) c
    else c in
  _refreshCredentials (with_credentials (accessToken a) (refreshToken a) c1).
End Beat.

(** [setCredentials] with at most [depth] nested calls of itself. *)
Fixpoint setCredentials (now : Z) (depth : nat) (a : Credentials)
         (c : ApiClient) : Run unit :=
  match depth with
  | O => None
  | S d => setCredentials_body now (setCredentials now d) a c
  end.

(** [getSessionProfile]. *)
Definition getSessionProfile (c : ApiClient) : completion (option Profile) :=
  decode (_accessToken c).

(** ** logout and me

    [_driver] is the axios instance; [revoke] is the request
    [{ url: config.revokeEndpoint, method: 'post' }]. *)
Section Revoke.
Variables W Request : Type.
Variable _driver : Request -> W -> W * outcome value.
Variable revoke : Request.
Variable now : Z.
Variable depth : nat.

Definition settle {A : Type} (w : W) (r : Run A)
  : option (W * ApiClient * outcome A) :=
  match r with
  | None => None
  | Some (c, Normal a) => Some (w, c, Resolved a)
  | Some (c, Throw e) => Some (w, c, Rejected e)
  end.

Definition logout (w : W) (c : ApiClient)
  : option (W * ApiClient * outcome unit) :=
  match _driver revoke w with
  | (w', Resolved _) => settle w' (_localLogout (setCredentials now depth) c)
  | (w', Rejected e) => Some (w', c, Rejected e)
  | (w', Pending) => Some (w', c, Pending)
  end.

Definition me (w : W) (c : ApiClient)
  : option (W * ApiClient * outcome unit) :=
  if negb (truthy_token (_accessToken c)) then Some (w, c, Resolved tt)
  else
    match _driver revoke w with
    | (w', Resolved _) => settle w' (_localLogout (setCredentials now depth) c)
    | (w', Rejected e) => Some (w', c, Rejected e)
    | (w', Pending) => Some (w', c, Pending)
    end.
End Revoke.

(** ** The [methodCallback] of the constructor

    [$this[method](...args) || true]; [methods] is the lookup
    [$this[method]], [None] where the property is not callable. *)
Section MethodCallback.
Variable methods :
  string -> option (list value -> ApiClient -> ApiClient * completion value).

Definition methodCallback (method : Proxy.segment) (args : list value)
           (c : ApiClient) : ApiClient * completion value :=
  match method with
  | Proxy.Ident name =>
      match methods name with
      | Some f =>
          match f args c with
          | (c', Normal v) => (c', Normal (or_else v (VBool true)))
          | (c', Throw e) => (c', Throw e)
          end
      | None => (c, Throw (TypeError "$this[method] is not a function"))
      end
  | Proxy.Literal _ =>
      (c, Throw (TypeError "$this[method] is not a function"))
  end.
End MethodCallback.

(** Some of the methods [$this[method]] finds: those that take no
    argument and return nothing.  The cycle is given its two levels, which
    it never exceeds, so the branch for [None] is never taken. *)
Definition ApiClient_methods (now : Z) (name : string)
  : option (list value -> ApiClient -> ApiClient * completion value) :=
  let unit_method (m : ApiClient -> Run unit) :=
    Some (fun (_ : list value) (c : ApiClient) =>
            match m c with
            | Some (c', Normal _) => (c', Normal VUndefined)
            | Some (c', Throw e) => (c', Throw e)
            | None => (c, Throw (Error "Maximum call stack size exceeded"))
            end) in
  if name =? "connect"
  then Some (fun _ c => (with_super connect c, Normal VUndefined))
  else if name =? "_localLogout"
  then unit_method (_localLogout (setCredentials now 2))
  else if name =? "_sessionBeat"
  then unit_method (_sessionBeat now (setCredentials now 2))
  else if name =? "_refreshCredentials"
  then unit_method (_refreshCredentials now (setCredentials now 2))
  else None.

(** ** The states the credential cycle ends in *)

(** The client after [setCredentials] with a falsy access token. *)
Definition signed_out (a : Credentials) (c : ApiClient) : ApiClient :=
  let c1 := if persist c
            then with_storage (Some (accessToken a, refreshToken a)) c
            else c in
  with_Authorization None
    (with_timer NoTimer
       (with_userProfile None
          (with_super (set_token (accessToken a))
             (with_credentials (accessToken a) (refreshToken a) c1)))).

(** The client after [setCredentials] with a token whose profile [p] has
    not expired. *)
Definition signed_in (now : Z) (a : Credentials) (t : string) (p : Profile)
           (c : ApiClient) : ApiClient :=
  let c1 := if persist c
            then with_storage (Some (Some t, refreshToken a)) c
            else c in
  with_super (emit "login" (Some p))
    (with_Authorization (Some ("Bearer " ++ t))
       (with_timer (Armed (beat_delay now p))
          (with_userProfile (Some p)
             (with_super (set_token (Some t))
                (with_credentials (Some t) (refreshToken a) c1))))).

(** The client after [setCredentials] with a token whose profile [p] has
    expired: the beat logs it out on the spot. *)
Definition timed_out (a : Credentials) (t : string) (p : Profile)
           (c : ApiClient) : ApiClient :=
  let c1 := if persist c
            then with_storage (Some (Some t, refreshToken a)) c
            else c in
  with_Authorization None
    (with_super (emit "logout" (Some p))
       (signed_out no_credentials
          (with_timer NoTimer
             (with_userProfile (Some p)
                (with_super (set_token (Some t))
                   (with_credentials (Some t) (refreshToken a) c1)))))).

(** The client a constructor given no credentials leaves, outside a
    browser. *)
Definition anonymous : ApiClient :=
  {| super := new_ReduxClient; _accessToken := None; _refreshToken := None;
     _userProfile := None; _daemonSessionExpired := NoTimer;
     Authorization := None; persist := false; storage := None |}.

End State.

Arguments logout {_ W Request} _ _ _ _ _ _.
Arguments me {_ W Request} _ _ _ _ _ _.

End Client.

(* ================================================================== *)
(** * src/lib/driver.js: the response interceptor *)
(* ================================================================== *)

Module Envelope.

Fixpoint lookup (k : string) (fields : list (string * value)) : option value :=
  match fields with
  | [] => None
  | (k', v) :: rest => if String.eqb k k' then Some v else lookup k rest
  end.

(** [o.k] on a value that is neither [undefined] nor [null], for the keys
    read here ([data], [code], [error], [message], [errors]), which only
    an object can own. *)
Definition prop (o : value) (k : string) : value :=
  match o with
  | VObj fields =>
      match lookup k fields with
      | Some v => v
      | None => VUndefined
      end
  | _ => VUndefined
  end.

Definition nullish (v : value) : bool :=
  match v with
  | VUndefined | VNull => true
  | _ => false
  end.

(** What the interceptor throws: an [ApiError] with the [message] its
    [Error] part keeps, its [code] and its [data], or what the language
    itself throws. *)
Inductive thrown : Type :=
| ApiError (message : string) (code : value) (data : value)
| Native (e : exn).

Inductive reply : Type :=
| Returns (data : value)
| Throws (t : thrown).

(** The [message] of [new Error(m)]. *)
Definition error_message (m : value) : string :=
  if is_undefined m then "" else ToString m.

(** The default of [error] in the destructuring. *)
Definition default_error : value :=
  VObj [("message", VStr "Unknown error"); ("errors", VArr [])].

(** [code === 200]. *)
Definition is_200 (code : value) : bool :=
  match code with
  | VNum n => (n =? 200)%Z
  | _ => false
  end.

(** The function given to [driver.interceptors.response.use]. *)
Definition response_interceptor (response : value) : reply :=
  let envelope := prop (or_else response (VObj [])) "data" in
  if nullish envelope
  then Throws (Native (TypeError "Cannot destructure property 'code'"))
  else
    let code := match prop envelope "code" with
                | VUndefined => VNum 500
                | c => c
                end in
    let data := prop envelope "data" in
    let error := match prop envelope "error" with
                 | VUndefined => default_error
                 | e => e
                 end in
    if is_200 code then Returns data
    else if nullish error
         then Throws (Native (TypeError "Cannot read property 'errors' of null"))
         else Throws (ApiError (error_message (prop error "message")) code
                               (prop error "errors")).

End Envelope.

(* ================================================================== *)
(** * src/lib/query-param-encoder.js *)
(* ================================================================== *)

Module Params.

(** The values found in query parameters that are not objects. *)
Inductive scalar : Type :=
| SUndefined
| SBool (b : bool)
| SNum (n : Z)
| SStr (s : string)
| SFunction.

(** A query parameter: an array, a regular expression, a plain object,
    [null] or a scalar. *)
Inductive param : Type :=
| PArray (items : list param)
| PRegExp (source flags : string)
| PObject (fields : list (string * param))
| PNull
| PScalar (s : scalar).

Definition hex_digit (n : nat) : ascii :=
  nth n ["0"; "1"; "2"; "3"; "4"; "5"; "6"; "7"; "8"; "9";
         "a"; "b"; "c"; "d"; "e"; "f"]%char "0"%char.

Definition backslash : ascii := "092"%char.
Definition double_quote : ascii := "034"%char.

(** One character of a string under [JSON.stringify]. *)
Definition escape (c : ascii) : string :=
  let n := nat_of_ascii c in
  if Nat.eqb n 8 then String backslash "b"
  else if Nat.eqb n 9 then String backslash "t"
  else if Nat.eqb n 10 then String backslash "n"
  else if Nat.eqb n 12 then String backslash "f"
  else if Nat.eqb n 13 then String backslash "r"
  else if Nat.eqb n 34 then String backslash (String double_quote "")
  else if Nat.eqb n 92 then String backslash (String backslash "")
  else if Nat.ltb n 32
       then String backslash
                   ("u00" ++ String (hex_digit (n / 16))
                                    (String (hex_digit (n mod 16)) ""))
       else String c "".

Fixpoint escape_all (s : string) : string :=
  match s with
  | EmptyString => EmptyString
  | String c rest => escape c ++ escape_all rest
  end.

Definition JSON_quote (s : string) : string :=
  String double_quote (escape_all s ++ String double_quote "").

(** [JSON.stringify] of a scalar: a string, or [undefined] for
    [undefined] and for a function. *)
Definition JSON_stringify (o : scalar) : scalar :=
  match o with
  | SUndefined | SFunction => SUndefined
  | SBool true => SStr "true"
  | SBool false => SStr "false"
  | SNum n => SStr (NilZero.string_of_int (Z.to_int n))
  | SStr s => SStr (JSON_quote s)
  end.

(** The callback given to [mapValues]; on an object or [null] it is
    [queryParamEncode] again, and [mapValues(null)] is [{}]. *)
Fixpoint encode (o : param) : param :=
  match o with
  | PArray _ => o
  | PRegExp source flags =>
      PObject [("$regex", PScalar (SStr source));
               ("$options", PScalar (SStr flags))]
  | PObject fields =>
      PObject ((fix mapValues (l : list (string * param)) :=
                  match l with
                  | [] => []
                  | (k, v) :: rest => (k, encode v) :: mapValues rest
                  end) fields)
  | PNull => PObject []
  | PScalar s => PScalar (JSON_stringify s)
  end.

(** [queryParamEncode] on the fields of a plain object. *)
Definition queryParamEncode (obj : list (string * param))
  : list (string * param) :=
  map (fun kv => (fst kv, encode (snd kv))) obj.

(** What an encoded parameter looks like: outside arrays, which are left
    as they come, nothing but objects, strings and [undefined]. *)
Fixpoint encoded (p : param) : bool :=
  match p with
  | PArray _ => true
  | PRegExp _ _ => false
  | PObject fields =>
      (fix all (l : list (string * param)) : bool :=
         match l with
         | [] => true
         | (_, v) :: rest => encoded v && all rest
         end) fields
  | PNull => false
  | PScalar (SStr _) => true
  | PScalar SUndefined => true
  | PScalar _ => false
  end.

(** A parameter that holds nothing for the encoder to rewrite: outside
    arrays, no string, no number, no boolean and no regular expression. *)
Fixpoint quote_free (p : param) : bool :=
  match p with
  | PArray _ => true
  | PRegExp _ _ => false
  | PObject fields =>
      (fix all (l : list (string * param)) : bool :=
         match l with
         | [] => true
         | (_, v) :: rest => quote_free v && all rest
         end) fields
  | PNull => true
  | PScalar SUndefined => true
  | PScalar SFunction => true
  | PScalar _ => false
  end.

End Params.

(* ================================================================== *)
(** * src/api-client.js: fetch and the entity methods *)
(* ================================================================== *)

Module Rest.

(** The object handed to [this.driver]; a field left out is [undefined]
    ([None] for the verb). *)
Record Config : Type := mkConfig {
  url : string;
  method : option Proxy.verb;
  data : value;
  params : value
}.

(** The fields of an object are listed as the language lists its own
    keys: first the keys that are array indices, in ascending order,
    then the other names in the order of their creation.

    [array_index k]: the array index a property name stands for, if any:
    the canonical decimal form of an integer below [2^32 - 1]. *)
Definition array_index (k : string) : option N :=
  match NilZero.uint_of_string k with
  | Some u =>
      let n := N.of_uint u in
      if (NilZero.string_of_uint (N.to_uint n) =? k) && (n <? 4294967295)%N
      then Some n else None
  | None => None
  end.

Definition is_index (kv : string * value) : bool :=
  match array_index (fst kv) with Some _ => true | None => false end.

Definition is_name (kv : string * value) : bool := negb (is_index kv).

(** The list of an object in own-key order: indices from [lo] on,
    ascending, then names only. *)
Fixpoint own_order_from (lo : N) (fields : list (string * value)) : bool :=
  match fields with
  | [] => true
  | (k, _) :: rest =>
      match array_index k with
      | Some n => (lo <=? n)%N && own_order_from (N.succ n) rest
      | None => forallb is_name rest
      end
  end.

Definition own_order (fields : list (string * value)) : bool :=
  own_order_from 0 fields.

(** Fields whose keys are all array indices below [n]. *)
Definition below (n : N) (fields : list (string * value)) : Prop :=
  Forall (fun kv => exists m, array_index (fst kv) = Some m /\ (m < n)%N) fields.

Definition has_key (k : string) (target : list (string * value)) : bool :=
  existsb (fun kv => k =? fst kv) target.

Fixpoint replace (k : string) (v : value) (target : list (string * value))
  : list (string * value) :=
  match target with
  | [] => []
  | (k', v') :: rest =>
      if k =? k' then (k, v) :: rest else (k', v') :: replace k v rest
  end.

(** A new array index takes its place among the indices. *)
Fixpoint insert_index (n : N) (k : string) (v : value)
         (target : list (string * value)) : list (string * value) :=
  match target with
  | [] => [(k, v)]
  | (k', v') :: rest =>
      match array_index k' with
      | Some m =>
          if (m <? n)%N then (k', v') :: insert_index n k v rest
          else (k, v) :: target
      | None => (k, v) :: target
      end
  end.

(** [target[k] = v] on a plain object: the value of an existing key is
    replaced where it stands; a new key that is an array index is listed
    among the indices, any other new key goes last.  The name
    [__proto__], where the object does not own it, is taken by the setter
    it inherits: no property is created (the prototype, which that
    setter changes, is not part of the values here). *)
Definition set_prop (k : string) (v : value) (target : list (string * value))
  : list (string * value) :=
  if has_key k target then replace k v target
  else if k =? "__proto__" then target
  else
    match array_index k with
    | Some n => insert_index n k v target
    | None => (target ++ [(k, v)])%list
    end.

(** [Object.assign(target, source)] on the properties of [source], taken
    in own-key order. *)
Definition assign (target source : list (string * value))
  : list (string * value) :=
  fold_left (fun t kv => set_prop (fst kv) (snd kv) t) source target.

Definition index_key (i : nat) : string :=
  NilZero.string_of_uint (Nat.to_uint i).

(** The enumerable own properties of a value, in order; [None] where the
    value does not tell them: a string that is not empty (its characters)
    and a callable (whatever was assigned to it). *)
Definition own_enumerable (v : value) : option (list (string * value)) :=
  match v with
  | VObj fields => Some fields
  | VArr items => Some (combine (map index_key (seq 0 (length items))) items)
  | VUndefined | VNull | VBool _ | VNum _ => Some []
  | VStr s => if s =? "" then Some [] else None
  | VFunction _ => None
  end.

(** [fetch (endpoint)]: the request given to [this.driver], or what the
    building of it throws. *)
Definition fetch (endpoint : Proxy.Descriptor) : option (completion Config) :=
  if Envelope.nullish (Proxy.get endpoint)
  then Some (Throw (TypeError "Cannot convert undefined or null to object"))
  else
    match own_enumerable (Proxy.get endpoint),
          own_enumerable (or_else (Proxy.body endpoint) (VObj [])) with
    | Some keys, Some body =>
        let target :=
          if Nat.ltb 0 (length keys)
          then [("$params", Proxy.get endpoint)]
          else [] in
        Some (Normal {| url := Proxy.url endpoint;
                        method := Some (Proxy.method endpoint);
                        params := VObj [];
                        data := VObj (assign target body) |})
    | _, _ => None
    end.

(** [create (entity, entry, params = {})]. *)
Definition create (entity entry params : value) : completion Config :=
  if negb (truthy entity) || negb (truthy entry)
  then Throw (Error "Provide both entity and entry")
  else Normal {| url := "/" ++ ToString entity; data := entry;
                 method := Some Proxy.POST;
                 params := Proxy.default_object params |}.

(** [read (entity, id, target, params = {})]. *)
Definition read (entity id target params : value) : completion Config :=
  if negb (truthy entity) || negb (truthy id)
  then Throw (Error "Provide both entity and id")
  else
    let endpoint := Array_join (filter truthy [entity; id; target]) "/" in
    Normal {| url := "/" ++ endpoint; method := None; data := VUndefined;
              params := Proxy.default_object params |}.

(** [update (entity, id, update, params)]. *)
Definition update (entity id update params : value) : completion Config :=
  if negb (truthy entity) || negb (truthy id)
  then Throw (Error "Provide both entity and id")
  else Normal {| url := "/" ++ ToString entity ++ "/" ++ ToString id;
                 method := Some Proxy.PATCH; data := update;
                 params := params |}.

(** [delete (entity, id, params = {})].  [Object.assign(params, ...)]
    writes into the caller's object; on a primitive it writes into a
    wrapper that is dropped; [None] where [params] is an array or a
    callable, which would gain a property. *)
Definition delete (entity id params : value) : option (completion Config) :=
  let url := "/" ++ ToString entity in
  let params := Proxy.default_object params in
  if is_object id
  then
    match params with
    | VObj fields =>
        Some (Normal {| url := url; method := Some Proxy.DELETE;
                        data := VUndefined;
                        params := VObj (set_prop "id" id fields) |})
    | VNull => Some (Throw (TypeError "Cannot convert undefined or null to object"))
    | VBool _ | VNum _ | VStr _ =>
        Some (Normal {| url := url; method := Some Proxy.DELETE;
                        data := VUndefined; params := params |})
    | _ => None
    end
  else
    Some (Normal {| url := if truthy id then url ++ "/" ++ ToString id else url;
                    method := Some Proxy.DELETE; data := VUndefined;
                    params := params |}).

(** The [next] the constructor gives [ApiProxy]: [fetch], which builds
    the request for [this.driver]. *)
Definition next_fetch (W : Type) (d : Proxy.Descriptor) (w : W)
  : W * option (completion Config) :=
  (w, fetch d).

End Rest.

(* ================================================================== *)
(** * The cache pipeline, the realtime client and the session: what is
      said about them further on *)
(* ================================================================== *)

Module Offer.
Import Cache.

Section Offered.
Variables W Request Id : Type.

(** What the [req] pass leaves, said directly: the hooks from position
    [i] on are offered the request one after the other, each answer
    taking the place of the one before ([res0] to begin with), until one
    does not resolve. *)
Fixpoint offered (id : Id) (r : Request)
         (cache : list (CacheHook W Request Id)) (i : nat) (w : W)
         (res0 : value) : W * list event * outcome value :=
  match cache with
  | [] => (w, [], Resolved res0)
  | h :: rest =>
      match req h id r w with
      | (w', Resolved v) =>
          let '(w'', evs, o) := offered id r rest (S i) w' v in
          (w'', ReqCalled i :: evs, o)
      | (w', Rejected e) => (w', [ReqCalled i], Rejected e)
      | (w', Pending) => (w', [ReqCalled i], Pending)
      end
  end.

(** A hook whose [req] resolves whatever the state it runs in. *)
Definition req_resolves (id : Id) (r : Request) (h : CacheHook W Request Id)
  : Prop :=
  forall w, exists w' v, req h id r w = (w', Resolved v).

Definition is_res_event (e : event) : bool :=
  match e with
  | ResCalled _ => true
  | _ => false
  end.

Definition is_transport_event (e : event) : bool :=
  match e with
  | TransportCalled => true
  | _ => false
  end.
End Offered.

Arguments offered {W Request Id} _ _ _ _ _ _.
Arguments req_resolves {W Request Id} _ _ _.

End Offer.

Module Realtime.
Import Client.

Section Reach.
Context `{Jwt}.

(** The states of the realtime client: the one its constructor leaves,
    then calls of [connect], assignments to [token], and the socket
    calling back the handlers wired to it. *)
Inductive reachable : ReduxClient -> Prop :=
| reach_new : reachable new_ReduxClient
| reach_connect (r : ReduxClient) :
    reachable r -> reachable (connect r)
| reach_token (r : ReduxClient) (v : token) :
    reachable r -> reachable (set_token v r)
| reach_on_connect (r : ReduxClient) :
    reachable r -> _socket r <> None -> reachable (_connect r)
| reach_on_disconnect (r : ReduxClient) :
    reachable r -> _socket r <> None -> reachable (_disconnect r)
| reach_on_error (r : ReduxClient) :
    reachable r -> _socket r <> None -> reachable (_error r).

(** The sockets opened and not disconnected since, given those of
    before. *)
Fixpoint live (log : list socket_effect) (before : list nat) : list nat :=
  match log with
  | [] => before
  | Opened id _ :: rest => live rest (before ++ [id])%list
  | Disconnected id :: rest => live rest (remove Nat.eq_dec id before)
  | _ :: rest => live rest before
  end.
End Reach.

End Realtime.

Module Session.
Import Client.

Section Coherence.
Context `{Jwt}.

(** The parts of the session agree with the access token: the token of
    the realtime client is the access token; with a truthy token the
    header is its bearer, the profile is what it decodes to and the beat
    is armed; otherwise there is no header, no profile and no timer;
    where credentials are persisted, what is stored is the pair held. *)
Definition coherent (c : ApiClient) : Prop :=
  _token (super c) = _accessToken c
  /\ (persist c = true -> storage c = Some (_accessToken c, _refreshToken c))
  /\ match _accessToken c with
     | Some t =>
         if truthy_token (Some t)
         then Authorization c = Some ("Bearer " ++ t)
              /\ (exists p, jwtDecode t = Normal p /\ _userProfile c = Some p)
              /\ (exists d, _daemonSessionExpired c = Armed d)
         else Authorization c = None /\ _userProfile c = None
              /\ _daemonSessionExpired c = NoTimer
     | None => Authorization c = None /\ _userProfile c = None
               /\ _daemonSessionExpired c = NoTimer
     end.

(** [login].  [driver] is [this.driver] applied to the request made of
    the credentials; its response is read as the pair of its fields
    [accessToken] and [refreshToken], each [null], left out or a
    string. *)
Definition login {W : Type} (driver : W -> W * outcome Credentials)
           (now : Z) (depth : nat) (w : W) (c : ApiClient)
  : option (W * ApiClient * outcome Credentials) :=
  match _localLogout (setCredentials now depth) c with
  | None => None
  | Some (c1, Throw e) => Some (w, c1, Rejected e)
  | Some (c1, Normal _) =>
      match driver w with
      | (w', Rejected e) => Some (w', c1, Rejected e)
      | (w', Pending) => Some (w', c1, Pending)
      | (w', Resolved r) =>
          match setCredentials now depth r c1 with
          | None => None
          | Some (c2, Throw e) => Some (w', c2, Rejected e)
          | Some (c2, Normal _) => Some (w', c2, Resolved r)
          end
      end
  end.
End Coherence.

End Session.

Module Chain.
Import Proxy.

(** A name the [get] trap takes for a segment, on whatever proxy it is
    read: none of the properties a [crudProxy] owns. *)
Definition free_name (prop : string) : Prop :=
  hasOwnProperty {| own_get := Some (VObj []) |} prop = false.

(** What an invocation with [args] makes of the query it is given. *)
Definition query_of (args : list value) : value :=
  default_object (hd VUndefined args).

(** The path after the reads of [props] and an invocation with [args],
    and the query then staged. *)
Definition narrowed (props : list string) (args : list value) : list segment :=
  (map Ident props
   ++ (if is_object (query_of args) then [] else [Literal (query_of args)]))%list.

Definition staged (args : list value) : value :=
  if is_object (query_of args) then query_of args else VObj [].

End Chain.

(* ================================================================== *)
(** * Instances used by the closed examples *)
(* ================================================================== *)

Module Sample.

Definition is_upper (c : ascii) : bool :=
  let n := nat_of_ascii c in (Nat.leb 65 n && Nat.leb n 90).

Definition is_lower_or_digit (c : ascii) : bool :=
  let n := nat_of_ascii c in
  (Nat.leb 97 n && Nat.leb n 122) || (Nat.leb 48 n && Nat.leb n 57).

Definition to_lower (c : ascii) : ascii :=
  if is_upper c then ascii_of_nat (nat_of_ascii c + 32) else c.

(** Kebab-casing of ASCII identifiers: a hyphen at every passage from a
    lower-case letter or digit to a capital and at every run of other
    characters between two words, all letters lowered.  It stands for
    [lodash/kebabCase] on [camelCase], [snake_case] and plain lower-case
    names. *)
Fixpoint kebab_from (s : string) (started after_word pending : bool) : string :=
  match s with
  | EmptyString => EmptyString
  | String c rest =>
      if is_upper c then
        (if started && (after_word || pending) then "-" else "")
        ++ String (to_lower c) (kebab_from rest true false false)
      else if is_lower_or_digit c then
        (if started && pending then "-" else "")
        ++ String c (kebab_from rest true true false)
      else kebab_from rest started false started
  end.

Definition ascii_kebabCase (s : string) : string := kebab_from s false false false.

Definition lodash : Lodash := {| kebabCase := ascii_kebabCase |}.

(** A decoder that knows two tokens; a profile is its expiry time. *)
Definition decode_sample (s : string) : completion Z :=
  if s =? "valid.token" then Normal 5000%Z
  else if s =? "expired.token" then Normal 1000%Z
  else Throw (InvalidTokenError "Invalid token specified").

Definition jwt : Jwt :=
  {| Profile := Z; jwtDecode := decode_sample;
     sessionExpires := fun p => Some p |}.

(** ** Chains, hooks, transports and clients of the closed runs *)

Section Data.
Import Proxy Cache Client.
#[local] Existing Instance jwt.

(** [proxy.entities.user('id').delete()] with the defaults of [ApiProxy]. *)
Definition entities_user_id : list (step) :=
  [Access "entities"; Access "user"; Invoke [VStr "id"]].

(** A hook whose [req] answers [v] and whose [res] does nothing. *)
Definition hook_answering (v : value) : CacheHook unit string string :=
  {| req := fun _ _ w => (w, Resolved v);
     res := fun _ _ _ w => (w, Resolved VUndefined) |}.

(** A hook that serves nothing and whose [res] rejects. *)
Definition hook_failing_res : CacheHook unit string string :=
  {| req := fun _ _ w => (w, Resolved VUndefined);
     res := fun _ _ _ w => (w, Rejected (Error "boom")) |}.

Definition transport_ok (r : string) (w : unit) : unit * outcome value :=
  (w, Resolved (VStr "from the server")).

(** [driver] on the request ["/entities"], nothing having happened yet;
    the fingerprint of a request is the request and no parameter needs
    encoding. *)
Definition run (cache : list (CacheHook unit string string))
  : Sys unit * outcome value :=
  driver (fun r => r) (fun r => r) cache transport_ok "/entities" (mkSys tt []).

Definition valid_pair : Credentials :=
  {| accessToken := Some "valid.token"; refreshToken := Some "refresh" |}.

Definition expired_pair : Credentials :=
  {| accessToken := Some "expired.token"; refreshToken := Some "refresh" |}.

(** The client once [valid_pair] is set, at time 2000. *)
Definition alice : ApiClient :=
  {| super := {| _token := Some "valid.token"; _isConnected := false;
                 _isConnecting := false; _connectedAuth := None;
                 _socket := None; sockets := [];
                 events := [Emit "login" (Some 5000%Z)] |};
     _accessToken := Some "valid.token"; _refreshToken := Some "refresh";
     _userProfile := Some 5000%Z;
     _daemonSessionExpired := Armed (Some 2250%Z);
     Authorization := Some "Bearer valid.token";
     persist := false; storage := None |}.

Definition network_down (r : string) (w : unit) : unit * outcome value :=
  (w, Rejected (Error "Network Error")).

Definition server_up (r : string) (w : unit) : unit * outcome value :=
  (w, Resolved VNull).

(** A client whose socket is established under the token it holds. *)
Definition established : ReduxClient := _connect (connect new_ReduxClient).

End Data.

End Sample.

(** More data for the closed runs. *)
Module MoreSample.
Import Cache.

(** A hook whose [req] rejects. *)
Definition hook_failing_req : CacheHook unit string string :=
  {| req := fun _ _ w => (w, Rejected (Error "boom"));
     res := fun _ _ _ w => (w, Resolved VUndefined) |}.

End MoreSample.

(* ================================================================== *)
(** * Statements: the path compiler and the call-path proxy *)
(* ================================================================== *)

Module ProxySpec.
Import Proxy Sample.

Lemma append_nil_r (s : string) : s ++ "" = s.
Proof. induction s as [|c s IH]; simpl; [reflexivity | now rewrite IH]. Qed.

Lemma append_assoc (a b c : string) : (a ++ b) ++ c = a ++ (b ++ c).
Proof. induction a as [|x a IH]; simpl; [reflexivity | now rewrite IH]. Qed.

(** The loop of [join], started after its first element, only adds to the
    right of what it has. *)
Lemma join_loop_later (sep R : string) (k : nat) (l : list value) :
  join_loop sep R (S k) l = R ++ join_loop sep "" (S k) l.
Proof.
  revert R k; induction l as [|x l IH]; intros R k; simpl.
  - now rewrite append_nil_r.
  - rewrite IH. rewrite (IH (sep ++ join_element x)).
    now rewrite !append_assoc.
Qed.

Lemma join_loop_index (sep R : string) (j k : nat) (l : list value) :
  join_loop sep R (S j) l = join_loop sep R (S k) l.
Proof.
  revert R j k; induction l as [|x l IH]; intros R j k; simpl;
    [reflexivity | apply IH].
Qed.

Lemma Array_join_concat (sep : string) (l : list value) :
  Array_join l sep = String.concat sep (map join_element l).
Proof.
  unfold Array_join. destruct l as [|x l]; simpl; [reflexivity|].
  revert x; induction l as [|y l IH]; intro x; simpl; [reflexivity|].
  rewrite (join_loop_index _ _ 1 0), join_loop_later.
  rewrite !append_assoc. do 2 f_equal.
  rewrite <- (IH y). now rewrite (join_loop_later sep (join_element y)).
Qed.

(** C5. For every sequence of path segments, [pathsToUrl] gives one
    leading [/] followed by the tokens joined by [/]: the kebab-cased
    name of an identifier, the raw value of a literal wrapper (a string
    as it stands); a path made of literals only is compiled without
    [kebabCase] having any part in it. *)
Theorem pathsToUrl_compiles `{Lodash} (paths : list segment) :
  pathsToUrl paths = spec_compile paths
  /\ (forall name, spec_token (Ident name) = kebabCase name)
  /\ (forall s, spec_token (Literal (VStr s)) = s)
  /\ (forall vs, pathsToUrl (map Literal vs)
                 = "/" ++ String.concat "/" (map join_element vs)).
Proof.
  assert (E : forall ps, pathsToUrl ps = spec_compile ps).
  { intro ps. unfold pathsToUrl, spec_compile.
    rewrite Array_join_concat, map_map. do 2 f_equal.
    apply map_ext. now intros [name|v]. }
  repeat split; try reflexivity; [apply E|].
  intro vs. rewrite E. unfold spec_compile. now rewrite map_map.
Qed.

Section Examples.
#[local] Existing Instance Sample.lodash.

Example compile_entities_user_123 :
  pathsToUrl [Ident "entities"; Ident "user"; Literal (VStr "123")]
  = "/entities/user/123"
  /\ pathsToUrl [Ident "product"; Ident "oliviasFavorite"]
     = "/product/olivias-favorite"
  /\ pathsToUrl [Ident "entities"; Ident "user"; Literal (VNum 123)]
     = "/entities/user/123"
  /\ pathsToUrl [] = "/".
Proof. repeat split; reflexivity. Qed.

End Examples.

Section Traps.
Context `{Lodash}.
Variables W R : Type.
Variable next : Descriptor -> W -> W * R.
Variable methodCallback : segment -> list value -> W -> W * completion value.

(** The tail of [handler.apply] keeps the path it finds as a prefix and
    leaves the world alone. *)
Lemma apply_tail_extends (thisArg : receiver) (args : list value) (st : Store W) :
  exists tail, paths (fst (fst (apply_tail thisArg args st))) = (paths st ++ tail)%list
               /\ world (fst (fst (apply_tail thisArg args st))) = world st.
Proof.
  unfold apply_tail, crudProxy. destruct thisArg; simpl.
  - destruct (is_object _); simpl; eauto. exists []. now rewrite app_nil_r.
  - exists []. now rewrite app_nil_r.
Qed.

(** C4. When [handler.apply] runs with exactly one segment accumulated,
    [methodCallback] receives that segment and the arguments of the call.
    A defined result is returned as it is and the path stays empty; on
    [undefined] the segment is back on the path and the call goes on as
    the plain tail of the trap does from that path. *)
Theorem apply_consults_methodCallback
        (target : ProxyObj) (thisArg : receiver) (args : list value)
        (seg : segment) (w w' : W) (v : value) :
  methodCallback seg args w = (w', Normal v) ->
  (v <> VUndefined ->
   handler_apply methodCallback target thisArg args {| paths := [seg]; world := w |}
   = ({| paths := []; world := w' |}, target, Returned v))
  /\ (v = VUndefined ->
      handler_apply methodCallback target thisArg args {| paths := [seg]; world := w |}
      = apply_tail thisArg args {| paths := [seg]; world := w' |}
      /\ exists tail,
          paths (fst (fst (handler_apply methodCallback target thisArg args
                                         {| paths := [seg]; world := w |})))
          = seg :: tail).
Proof.
  intro E. unfold handler_apply. simpl. rewrite E. split.
  - intro D. destruct v; try reflexivity. now elim D.
  - intros ->. simpl. split; [reflexivity|].
    destruct (apply_tail_extends thisArg args {| paths := [seg]; world := w' |})
      as (tail & P & _).
    exists tail. exact P.
Qed.

(** ** Terminal actions *)

Lemma send_resets (ps : list segment) (o : Options) (w : W) :
  paths (fst (send next ps o w)) = [].
Proof. unfold send, deliverState. destruct (next _ w). reflexivity. Qed.

Lemma action_resets (a : action) (p : ProxyObj) (st : Store W) :
  compiling a = true -> paths (fst (run_action next a p st)) = [].
Proof.
  destruct a as [b|b|[|x xs]| |]; simpl; intro C; try discriminate;
    unfold create, update, delete, valueOf, then_; simpl;
    try destruct (this_get p (paths st)); try apply send_resets; reflexivity.
Qed.

Lemma action_failed (a : action) (p : ProxyObj) (st : Store W) :
  compiling a = false ->
  exists e, run_action next a p st = (st, Failed e).
Proof.
  destruct a as [b|b|[|x xs]| |]; simpl; intro C; try discriminate.
  unfold delete. simpl. eauto.
Qed.

Lemma action_compiled_resets (a : action) (p : ProxyObj) (st st' : Store W)
      (c : Compiled R) :
  run_action next a p st = (st', c) ->
  (forall e, c <> Failed e) -> paths st' = [].
Proof.
  intros E NF. destruct (compiling a) eqn:C.
  - pose proof (action_resets a p st C) as P. now rewrite E in P.
  - destruct (action_failed a p st C) as (e & F). rewrite F in E.
    inversion E; subst. now elim (NF e).
Qed.

(** ** Chains *)

Lemma hasOwnProperty_child (prop : string) (q : value) (cur : ProxyObj) :
  hasOwnProperty {| own_get := Some q |} prop = false ->
  hasOwnProperty cur prop = false.
Proof.
  unfold hasOwnProperty, ownProperties. rewrite !existsb_app. simpl.
  intro E. apply orb_false_iff in E as [E1 E2]. rewrite E1.
  destruct (own_get cur); simpl; [exact E2 | reflexivity].
Qed.

(** A chain of property reads appends their names, in order, and nothing
    else. *)
Lemma run_steps_access (props : list string) (cur : ProxyObj) (this : receiver)
      (st : Store W) :
  Forall (fun prop => hasOwnProperty {| own_get := Some (VObj []) |} prop = false)
         props ->
  exists p this',
    run_steps methodCallback (map Access props) cur this st
    = ({| paths := (paths st ++ map Ident props)%list; world := world st |},
       Built p this').
Proof.
  revert cur this st. induction props as [|prop props IH]; intros cur this st F.
  - simpl. rewrite app_nil_r. destruct st. simpl. eauto.
  - inversion F as [|? ? Hp Hrest]; subst. simpl. unfold handler_get.
    rewrite (hasOwnProperty_child prop _ cur Hp).
    destruct (IH {| own_get := Some (VObj []) |} ThisChain
                 {| paths := (paths st ++ [Ident prop])%list; world := world st |}
                 Hrest) as (p & t & E).
    rewrite E. simpl. rewrite <- app_assoc. simpl. eauto.
Qed.

Lemma apply_continued_owns (target : ProxyObj) (this : receiver)
      (args : list value) (st st' : Store W) (t' q : ProxyObj) :
  handler_apply methodCallback target this args st = (st', t', Continued q) ->
  exists v, own_get q = Some v.
Proof.
  assert (T : forall s, apply_tail this args s = (st', t', Continued q) ->
                        exists v, own_get q = Some v).
  { intros s. unfold apply_tail, crudProxy. destruct this; simpl.
    - destruct (is_object _); simpl; intro E; inversion E; subst; simpl; eauto.
    - intro E; inversion E. }
  unfold handler_apply. destruct (paths st) as [|m [|m' rest]]; try apply T.
  destruct (methodCallback m args (world st)) as [w' [v|e]].
  - destruct (is_undefined v); [apply T | intro E; inversion E].
  - intro E; inversion E.
Qed.

Lemma run_steps_keeps_get (steps : list step) (cur : ProxyObj) (this : receiver)
      (st st' : Store W) (p : ProxyObj) (t : receiver) :
  (exists v, own_get cur = Some v) ->
  run_steps methodCallback steps cur this st = (st', Built p t) ->
  exists v, own_get p = Some v.
Proof.
  revert cur this st. induction steps as [|[prop|args] steps IH];
    intros cur this st O; simpl.
  - intro E; inversion E; subst. exact O.
  - unfold handler_get. destruct (hasOwnProperty cur prop).
    + intro E; inversion E.
    + apply IH. simpl. eauto.
  - destruct (handler_apply methodCallback cur this args st)
      as [[st1 t1] [v|q|e]] eqn:A; try (intro E; inversion E; fail).
    apply IH. eapply apply_continued_owns; eauto.
Qed.

(** Every proxy a chain of at least one step ends on owns a [get]. *)
Lemma run_steps_built_owns (s : step) (steps : list step) (cur : ProxyObj)
      (this : receiver) (st st' : Store W) (p : ProxyObj) (t : receiver) :
  run_steps methodCallback (s :: steps) cur this st = (st', Built p t) ->
  exists v, own_get p = Some v.
Proof.
  destruct s as [prop|args]; simpl.
  - unfold handler_get. destruct (hasOwnProperty cur prop).
    + intro E; inversion E.
    + apply run_steps_keeps_get. simpl. eauto.
  - destruct (handler_apply methodCallback cur this args st)
      as [[st1 t1] [v|q|e]] eqn:A; try (intro E; inversion E; fail).
    apply run_steps_keeps_get. eapply apply_continued_owns; eauto.
Qed.

Lemma run_chain_compiled (steps : list step) (a : action) (st st1 : Store W)
      (c : Compiled R) :
  run_chain next methodCallback steps a st = (st1, Some c) ->
  exists st' p t,
    run_steps methodCallback steps root ThisUndefined st = (st', Built p t)
    /\ run_action next a p st' = (st1, c).
Proof.
  unfold run_chain.
  destruct (run_steps methodCallback steps root ThisUndefined st)
    as [st' [p t|v|prop|e]] eqn:E; try (intro X; inversion X; fail).
  destruct (run_action next a p st') as [st'' c'] eqn:A.
  intro X; inversion X; subst. eauto.
Qed.

(** C6. Every terminal action that compiles (create, update, delete
    without arguments, the implicit read) leaves the path empty.  So once
    a chain driven from the root has compiled, the next chain from the
    same root runs exactly as on an empty path, and a chain of property
    reads closed by [create] compiles the URL of its own names only. *)
Theorem compile_resets_path :
  (forall a p st,
      compiling a = true -> paths (fst (run_action next a p st)) = [])
  /\ (forall steps1 a1 st st1 c1,
         run_chain next methodCallback steps1 a1 st = (st1, Some c1) ->
         (forall e, c1 <> Failed e) ->
         paths st1 = []
         /\ (forall steps2 a2,
                run_chain next methodCallback steps2 a2 st1
                = run_chain next methodCallback steps2 a2 (fresh (world st1)))
         /\ (forall props body,
                Forall (fun prop =>
                          hasOwnProperty {| own_get := Some (VObj []) |} prop = false)
                       props ->
                exists d r w2,
                  run_chain next methodCallback (map Access props) (Create body) st1
                  = ({| paths := []; world := w2 |}, Some (Sent d r))
                  /\ url d = pathsToUrl (map Ident props))).
Proof.
  split; [intros a p st; apply action_resets|].
  intros steps1 a1 st st1 c1 E NF.
  destruct (run_chain_compiled _ _ _ _ _ E) as (st' & p & t & _ & A).
  pose proof (action_compiled_resets _ _ _ _ _ A NF) as P.
  assert (F : st1 = fresh (world st1)).
  { destruct st1 as [ps w1]. simpl in P. subst. reflexivity. }
  split; [exact P|]. split.
  - intros steps2 a2. now rewrite <- F.
  - intros props body O.
    destruct (run_steps_access props root ThisUndefined st1 O) as (q & t' & S).
    unfold run_chain. rewrite S. simpl. unfold create, send, deliverState. simpl.
    rewrite P. simpl.
    destruct (next _ (world st1)) as [w2 r] eqn:N.
    eexists _, r, w2. split; reflexivity.
Qed.

(** Away from the root: on the proxy any chain of at least one step
    ends on, [delete] given an argument throws at once and compiles
    nothing; without argument it hands [next] the descriptor of a
    [delete] request made of the URL of the accumulated path and the
    staged query, with an empty body, and leaves the path empty. *)
Theorem delete_compiles (s : step) (steps : list step) (st st' : Store W)
        (p : ProxyObj) (t : receiver) :
  run_steps methodCallback (s :: steps) root ThisUndefined st = (st', Built p t) ->
  (forall x xs,
      run_chain next methodCallback (s :: steps) (Delete (x :: xs)) st
      = (st', Some (Failed (Error "Method delete does not take any arguments"))))
  /\ exists q,
      own_get p = Some q
      /\ let d := {| url := pathsToUrl (paths st'); method := DELETE;
                     get := default_object q; body := VObj [] |} in
         run_chain next methodCallback (s :: steps) (Delete []) st
         = ({| paths := []; world := fst (next d (world st')) |},
            Some (Sent d (snd (next d (world st'))))).
Proof.
  intro E. split.
  - intros x xs. unfold run_chain. rewrite E. reflexivity.
  - destruct (run_steps_built_owns _ _ _ _ _ _ _ _ E) as (q & O).
    exists q. split; [exact O|]. simpl.
    unfold run_chain. rewrite E. simpl. unfold delete, this_get. simpl.
    rewrite O. unfold send, deliverState. simpl.
    destruct (next _ (world st')) as [w2 r]. reflexivity.
Qed.

(** C7. The empty chain: [delete()] called on the root proxy itself.
    The root made with the default state owns no [get], so reading
    [this.get] goes through the [get] trap: the name [get] is pushed as
    one more segment and what comes back is a callable.  The request
    compiled is a [delete] on the path followed by [/get], with that
    callable for query, where nothing is staged and the path is the one
    to consume.  The implicit read of the same root compiles the path as
    it is, with the query [{}]. *)
Theorem root_delete_reads_get_through_trap (st : Store W) :
  (let d := {| url := pathsToUrl (paths st ++ [Ident "get"]); method := DELETE;
               get := proxy_value; body := VObj [] |} in
   run_chain next methodCallback [] (Delete []) st
   = ({| paths := []; world := fst (next d (world st)) |},
      Some (Sent d (snd (next d (world st))))))
  /\ pathsToUrl ([] ++ [Ident "get"]) = "/" ++ kebabCase "get"
  /\ typeof proxy_value = TFunction
  /\ (let r := {| url := pathsToUrl (paths st); method := GET;
                  get := VObj []; body := VObj [] |} in
      run_chain next methodCallback [] Await st
      = ({| paths := []; world := fst (next r (world st)) |},
         Some (Sent r (snd (next r (world st)))))).
Proof.
  repeat split.
  - unfold run_chain. simpl. unfold delete, this_get. simpl.
    unfold send, deliverState. simpl.
    destruct (next _ (world st)) as [w2 r]. reflexivity.
  - unfold run_chain. simpl. unfold then_, send, deliverState. simpl.
    destruct (next _ (world st)) as [w2 r]. reflexivity.
Qed.

End Traps.

Section Examples.
#[local] Existing Instance Sample.lodash.

(** [ApiProxy().delete()] with the defaults of [ApiProxy], beside
    [ApiProxy().then(r => r)]. *)
Example root_delete_compiles_get :
  run_chain default_next default_methodCallback [] (Delete []) (fresh tt)
  = (fresh tt,
     Some (Sent {| url := "/get"; method := DELETE;
                   get := proxy_value; body := VObj [] |}
                {| url := "/get"; method := DELETE;
                   get := proxy_value; body := VObj [] |}))
  /\ run_chain default_next default_methodCallback [] Await (fresh tt)
     = (fresh tt,
        Some (Sent {| url := "/"; method := GET; get := VObj []; body := VObj [] |}
                   {| url := "/"; method := GET; get := VObj []; body := VObj [] |})).
Proof. split; reflexivity. Qed.

Lemma delete_compiles_witness :
  ((forall x xs,
       run_chain default_next default_methodCallback entities_user_id
                 (Delete (x :: xs)) (fresh tt)
       = ({| paths := [Ident "entities"; Ident "user"; Literal (VStr "id")];
             world := tt |},
          Some (Failed (Error "Method delete does not take any arguments"))))
   /\ exists q,
       own_get {| own_get := Some (VObj []) |} = Some q
       /\ let d := {| url := "/entities/user/id"; method := DELETE;
                      get := default_object q; body := VObj [] |} in
          run_chain default_next default_methodCallback entities_user_id
                    (Delete []) (fresh tt)
          = ({| paths := []; world := fst (default_next d tt) |},
             Some (Sent d (snd (default_next d tt)))))
  /\ run_chain default_next default_methodCallback entities_user_id
               (Delete []) (fresh tt)
     = (fresh tt,
        Some (Sent {| url := "/entities/user/id"; method := DELETE;
                      get := VObj []; body := VObj [] |}
                   {| url := "/entities/user/id"; method := DELETE;
                      get := VObj []; body := VObj [] |})).
Proof.
  split; [|reflexivity].
  exact (delete_compiles unit Descriptor default_next default_methodCallback
           (Access "entities") [Access "user"; Invoke [VStr "id"]]
           (fresh tt)
           {| paths := [Ident "entities"; Ident "user"; Literal (VStr "id")];
              world := tt |}
           {| own_get := Some (VObj []) |} ThisUndefined eq_refl).
Defined.

Lemma apply_consults_methodCallback_witness :
  handler_apply default_methodCallback root ThisChain
                [VObj [("url", VStr "papo")]]
                {| paths := [Ident "fetch"]; world := tt |}
  = (fresh tt, root,
     Returned (VObj [("method", VStr "fetch");
                     ("args", VArr [VObj [("url", VStr "papo")]])]))
  /\ handler_apply (fun _ _ w => (w, Normal VUndefined)) root ThisChain
                   [VStr "id"] {| paths := [Ident "user"]; world := tt |}
     = ({| paths := [Ident "user"; Literal (VStr "id")]; world := tt |},
        {| own_get := Some (VArr [VStr "id"]) |},
        Continued {| own_get := Some (VObj []) |}).
Proof.
  split.
  - apply (proj1 (apply_consults_methodCallback
                    unit default_methodCallback root ThisChain
                    [VObj [("url", VStr "papo")]] (Ident "fetch") tt tt _ eq_refl)).
    discriminate.
  - apply (proj2 (apply_consults_methodCallback
                    unit (fun _ _ w => (w, Normal VUndefined)) root ThisChain
                    [VStr "id"] (Ident "user") tt tt _ eq_refl)).
    reflexivity.
Defined.

(** [proxy.entities.user.create(b)] and then [proxy.product.create(b)] on
    the same root. *)
Lemma compile_resets_path_witness :
  let first :=
    run_chain default_next default_methodCallback
              [Access "entities"; Access "user"] (Create (VObj [])) (fresh tt) in
  paths (fst first) = []
  /\ run_chain default_next default_methodCallback
               [Access "product"] (Create (VObj [])) (fst first)
     = (fresh tt,
        Some (Sent {| url := "/product"; method := POST;
                      get := VObj []; body := VObj [] |}
                   {| url := "/product"; method := POST;
                      get := VObj []; body := VObj [] |})).
Proof.
  intro first.
  destruct (proj2 (compile_resets_path unit Descriptor default_next
                                       default_methodCallback)
                  [Access "entities"; Access "user"] (Create (VObj []))
                  (fresh tt) (fst first) _ eq_refl) as (P & Q & _).
  - discriminate.
  - split; [exact P|]. rewrite Q. reflexivity.
Defined.

End Examples.

End ProxySpec.

(* ================================================================== *)
(** * Statements: the cache pipeline *)
(* ================================================================== *)

Module CacheSpec.
Import Cache Sample.

Section Observation.
Variables W Request Id : Type.
Variable objectHash : Request -> Id.
Variable encodeParams : Request -> Request.

Lemma pass_observed (id : Id) (r : Request) (response : value)
      (cache : list (CacheHook W Request Id)) (i : nat) (s : Sys W) :
  catch_log
    (match Promise_each (combine (seq i (length cache)) cache)
                        (res_callback W Request Id id r response) s with
     | (s', Resolved _) => (s', Resolved response)
     | (s', Rejected e) => (s', Rejected e)
     | (s', Pending) => (s', Pending)
     end)
  = {| world := fst (observed id r response cache i (world s));
       trace := (trace s ++ snd (observed id r response cache i (world s)))%list |}.
Proof.
  revert i s. induction cache as [|h rest IH]; intros i s; simpl.
  - destruct s. simpl. now rewrite app_nil_r.
  - unfold log. simpl. destruct (res h id r response (world s)) as [w' [v|e|]]; simpl.
    + rewrite IH. simpl.
      destruct (observed id r response rest (S i) w') as [w'' evs]. simpl.
      now rewrite <- app_assoc.
    + unfold log. simpl. now rewrite <- app_assoc.
    + reflexivity.
Qed.

Lemma observed_shape (id : Id) (r : Request) (response : value)
      (cache : list (CacheHook W Request Id)) (i : nat) (w : W) :
  exists k l,
    snd (observed id r response cache i w) = (map ResCalled (seq i k) ++ l)%list
    /\ k <= length cache
    /\ (l = [] \/ exists e, l = [Logged e]).
Proof.
  revert i w. induction cache as [|h rest IH]; intros i w; simpl.
  - exists 0, []. simpl. auto.
  - destruct (res h id r response w) as [w' [v|e|]].
    + destruct (IH (S i) w') as (k & l & E & L & T).
      destruct (observed id r response rest (S i) w') as [w'' evs]. simpl in *.
      exists (S k), l. simpl. rewrite E. repeat split; auto. lia.
    + exists 1, [Logged e]. simpl. repeat split; eauto. lia.
    + exists 1, []. simpl. repeat split; auto. lia.
Qed.

Lemma observed_all (id : Id) (r : Request) (response : value)
      (cache : list (CacheHook W Request Id)) (i : nat) (w : W) :
  (forall h, In h cache ->
             forall x, exists x' v, res h id r response x = (x', Resolved v)) ->
  snd (observed id r response cache i w) = map ResCalled (seq i (length cache)).
Proof.
  revert i w. induction cache as [|h rest IH]; intros i w A; simpl; [reflexivity|].
  destruct (A h (or_introl eq_refl) w) as (w' & v & E). rewrite E.
  specialize (IH (S i) w' (fun h' I => A h' (or_intror I))).
  destruct (observed id r response rest (S i) w') as [w'' evs]. simpl in *.
  now rewrite IH.
Qed.

(** C3. When no hook serves the request and the transport resolves, the
    caller receives the response of the transport whatever the
    observation pass does.  The pass calls the [res] handlers in
    registration order until one does not resolve, those after it are
    not called; all of them are called when each resolves.  A rejection
    ends in the log and nowhere else. *)
Theorem observation_pass (cache : list (CacheHook W Request Id))
        (_driver : Request -> W -> W * outcome value)
        (r : Request) (s s1 : Sys W) (w : W) (response : value) :
  proxyCacheReq cache (objectHash r) r s = (s1, Resolved VUndefined) ->
  _driver (encodeParams r) (world s1) = (w, Resolved response) ->
  let pass := observed (objectHash r) (encodeParams r) response cache 0 w in
  driver objectHash encodeParams cache _driver r s
  = ({| world := fst pass;
        trace := (trace s1 ++ TransportCalled :: snd pass)%list |},
     Resolved response)
  /\ (exists k l,
         snd pass = (map ResCalled (seq 0 k) ++ l)%list
         /\ k <= length cache
         /\ (l = [] \/ exists e, l = [Logged e]))
  /\ ((forall h, In h cache ->
                 forall x, exists x' v,
                     res h (objectHash r) (encodeParams r) response x
                     = (x', Resolved v)) ->
      snd pass = map ResCalled (seq 0 (length cache))).
Proof.
  intros Q T pass. split; [|split].
  - unfold driver. rewrite Q. simpl. rewrite T.
    unfold proxyCacheRes, indexed. rewrite pass_observed. simpl.
    now rewrite <- app_assoc.
  - apply observed_shape.
  - apply observed_all.
Qed.

(** The answer of a hook is forgotten when a later hook answers
    [undefined]: [res] is assigned at every turn of the loop. *)
Lemma later_miss_discards_hit (h0 h1 : CacheHook W Request Id)
      (id : Id) (r : Request) (s : Sys W) (w0 w1 : W) (v : value) :
  req h0 id r (world s) = (w0, Resolved v) ->
  req h1 id r w0 = (w1, Resolved VUndefined) ->
  proxyCacheReq [h0; h1] id r s
  = ({| world := w1;
        trace := ((trace s ++ [ReqCalled 0]) ++ [ReqCalled 1])%list |},
     Resolved VUndefined).
Proof.
  intros E0 E1. unfold proxyCacheReq, indexed. simpl.
  rewrite E0. simpl. rewrite E1. reflexivity.
Qed.

End Observation.

(** ** Closed runs *)

(** C1. Two hooks are registered; the [req] of the first returns a
    defined value, the [req] of the second returns [undefined]. The second
    handler is called all the same, the transport is called, and the
    caller receives the answer of the server, not the value of the first
    hook.  When both return a value the caller receives the second. *)
Theorem first_hit_not_returned :
  run [hook_answering (VStr "cached"); hook_answering VUndefined]
  = (mkSys tt [ReqCalled 0; ReqCalled 1; TransportCalled;
               ResCalled 0; ResCalled 1],
     Resolved (VStr "from the server"))
  /\ run [hook_answering (VStr "first"); hook_answering (VStr "second")]
     = (mkSys tt [ReqCalled 0; ReqCalled 1], Resolved (VStr "second")).
Proof. split; reflexivity. Qed.

(** With one hook, or when the serving hook is the last one, the value is
    returned and the transport is left alone. *)
Example last_hit_returned :
  run [hook_answering VUndefined; hook_answering (VStr "cached")]
  = (mkSys tt [ReqCalled 0; ReqCalled 1], Resolved (VStr "cached")).
Proof. reflexivity. Qed.

(** The [res] of the first hook rejects: the second hook is never
    observed, the error is logged, the caller has its response. *)
Lemma res_failure_ends_pass :
  run [hook_failing_res; hook_answering VUndefined]
  = (mkSys tt [ReqCalled 0; ReqCalled 1; TransportCalled;
               ResCalled 0; Logged (Error "boom")],
     Resolved (VStr "from the server"))
  /\ ~ In (ResCalled 1)
          (trace (fst (run [hook_failing_res; hook_answering VUndefined]))).
Proof.
  split; [reflexivity|]. simpl.
  intros [E|[E|[E|[E|[E|[]]]]]]; discriminate.
Qed.

Lemma observation_pass_witness :
  run [hook_answering VUndefined; hook_answering VUndefined]
  = (mkSys tt [ReqCalled 0; ReqCalled 1; TransportCalled;
               ResCalled 0; ResCalled 1],
     Resolved (VStr "from the server")).
Proof.
  exact (proj1 (observation_pass unit string string (fun r => r) (fun r => r)
                  [hook_answering VUndefined; hook_answering VUndefined]
                  transport_ok "/entities" (mkSys tt [])
                  (mkSys tt [ReqCalled 0; ReqCalled 1]) tt
                  (VStr "from the server") eq_refl eq_refl)).
Defined.

End CacheSpec.

(* ================================================================== *)
(** * Statements: the realtime client and the session *)
(* ================================================================== *)

Module ClientSpec.
Import Client Sample.

Section Session.
Context `{Jwt}.

Lemma token_eqb_refl (t : token) : token_eqb t t = true.
Proof. destruct t as [s|]; simpl; [apply String.eqb_refl | reflexivity]. Qed.

(** C9. When the client is connected or connecting under the token it
    holds, [connect] changes nothing: the fields, the socket and the
    record of what was done to sockets are the same after as before.
    Hence a second [connect] in a row never does anything. *)
Theorem connect_same_identity_noop (r : ReduxClient) :
  _connectedAuth r = _token r ->
  _isConnected r = true \/ _isConnecting r = true ->
  connect r = r
  /\ sockets (connect r) = sockets r
  /\ _socket (connect r) = _socket r
  /\ connect (connect r) = connect r.
Proof.
  intros A C.
  assert (E : connect r = r).
  { unfold connect. rewrite A, token_eqb_refl.
    destruct C as [-> | ->]; simpl; [reflexivity|].
    now rewrite orb_true_r. }
  now rewrite !E.
Qed.

(** Whatever the state, [connect] leaves one in which it is a no-op. *)
Lemma connect_twice (r : ReduxClient) : connect (connect r) = connect r.
Proof.
  destruct (token_eqb (_connectedAuth r) (_token r)
            && (_isConnected r || _isConnecting r)) eqn:G.
  - unfold connect at 2. rewrite G. unfold connect. now rewrite G.
  - assert (E : connect r =
                {| _token := _token r; _isConnected := false; _isConnecting := true;
                   _connectedAuth := _token r;
                   _socket := Some (length (sockets r));
                   sockets := sockets (connect r);
                   events := events r |}).
    { unfold connect. rewrite G. reflexivity. }
    rewrite E at 1. unfold connect at 1. simpl.
    rewrite token_eqb_refl. simpl. symmetry. exact E.
Qed.

Lemma connect_events (r : ReduxClient) : events (connect r) = events r.
Proof. unfold connect. now destruct (_ && _). Qed.

Lemma set_token_events (v : token) (r : ReduxClient) :
  events (set_token v r) = events r.
Proof.
  unfold set_token. simpl. destruct (_isConnected r); [|reflexivity].
  now rewrite connect_events.
Qed.

(** ** The credential cycle on an anonymous client *)

Lemma decode_falsy (t : token) : truthy_token t = false -> decode t = Normal None.
Proof. unfold decode. destruct t as [s|]; [|reflexivity]. now intros ->. Qed.

Lemma _localLogout_anonymous
      (sc : Credentials -> ApiClient -> Run unit) (c : ApiClient) :
  truthy_token (_accessToken c) = false -> _localLogout sc c = Some (c, Normal tt).
Proof. unfold _localLogout. now intros ->. Qed.

Lemma _sessionBeat_anonymous (now : Z)
      (sc : Credentials -> ApiClient -> Run unit) (c : ApiClient) :
  truthy_token (_accessToken c) = false ->
  _sessionBeat now sc c = Some (with_timer NoTimer c, Normal tt).
Proof.
  intro F. unfold _sessionBeat. simpl. rewrite F.
  now apply _localLogout_anonymous.
Qed.

Lemma _refreshCredentials_anonymous (now : Z)
      (sc : Credentials -> ApiClient -> Run unit) (c : ApiClient) :
  truthy_token (_accessToken c) = false ->
  _refreshCredentials now sc c
  = Some (with_Authorization None
            (with_timer NoTimer
               (with_userProfile None
                  (with_super (set_token (_accessToken c)) c))),
          Normal tt).
Proof.
  intro F. unfold _refreshCredentials. simpl. rewrite (decode_falsy _ F).
  unfold bind. rewrite _sessionBeat_anonymous by exact F. simpl.
  destruct (_accessToken c) as [s|]; [|reflexivity].
  now rewrite F.
Qed.

Lemma setCredentials_anonymous (now : Z) (d : nat) (a : Credentials)
      (c : ApiClient) :
  truthy_token (accessToken a) = false ->
  setCredentials now (S d) a c = Some (signed_out a c, Normal tt).
Proof.
  intro F. simpl. unfold setCredentials_body.
  now rewrite _refreshCredentials_anonymous.
Qed.

(** [_localLogout] on a client that holds an access token. *)
Lemma _localLogout_signed_in (now : Z) (d : nat) (c : ApiClient) :
  truthy_token (_accessToken c) = true ->
  _localLogout (setCredentials now (S d)) c
  = Some (with_super (emit "logout" (_userProfile c))
                     (signed_out no_credentials c),
          Normal tt).
Proof.
  intro T. unfold _localLogout. rewrite T. simpl negb. cbv iota.
  unfold bind. now rewrite setCredentials_anonymous.
Qed.

Lemma signed_out_fields (a : Credentials) (c : ApiClient) :
  _accessToken (signed_out a c) = accessToken a
  /\ _refreshToken (signed_out a c) = refreshToken a
  /\ Authorization (signed_out a c) = None
  /\ _userProfile (signed_out a c) = None
  /\ events (super (signed_out a c)) = events (super c).
Proof.
  unfold signed_out. simpl. repeat split.
  rewrite set_token_events. now destruct (persist c).
Qed.

(** ** The credential cycle with a token that decodes *)

Lemma decode_truthy (t : string) (p : Profile) :
  truthy_token (Some t) = true -> jwtDecode t = Normal p ->
  decode (Some t) = Normal (Some p).
Proof. unfold decode. now intros -> ->. Qed.

Lemma setCredentials_valid (now : Z) (d : nat) (a : Credentials)
      (t : string) (p : Profile) (c : ApiClient) :
  accessToken a = Some t -> truthy_token (Some t) = true ->
  jwtDecode t = Normal p -> expired now p = false ->
  setCredentials now (S d) a c = Some (signed_in now a t p c, Normal tt).
Proof.
  intros A T D X. simpl. unfold setCredentials_body, _refreshCredentials.
  rewrite A. simpl _accessToken. rewrite (decode_truthy t p T D).
  unfold bind, _sessionBeat. simpl _accessToken. simpl _userProfile.
  rewrite T, X. simpl. unfold truthy_token in T. rewrite T. reflexivity.
Qed.

Lemma setCredentials_expired (now : Z) (d : nat) (a : Credentials)
      (t : string) (p : Profile) (c : ApiClient) :
  accessToken a = Some t -> truthy_token (Some t) = true ->
  jwtDecode t = Normal p -> expired now p = true ->
  setCredentials now (S (S d)) a c = Some (timed_out a t p c, Normal tt).
Proof.
  intros A T D X.
  change (setCredentials now (S (S d)) a c)
    with (setCredentials_body now (setCredentials now (S d)) a c).
  unfold setCredentials_body, _refreshCredentials. rewrite A. simpl _accessToken.
  rewrite (decode_truthy t p T D).
  unfold bind at 1. unfold _sessionBeat. simpl _accessToken. simpl _userProfile.
  rewrite T, X.
  rewrite _localLogout_signed_in by exact T. reflexivity.
Qed.

(** Two nested calls are as deep as the cycle goes. *)
Lemma setCredentials_total (now : Z) (d : nat) (a : Credentials) (c : ApiClient) :
  setCredentials now (S (S d)) a c <> None.
Proof.
  destruct (truthy_token (accessToken a)) eqn:T.
  - destruct (accessToken a) as [t|] eqn:A; [|discriminate].
    destruct (jwtDecode t) as [p|e] eqn:D.
    + destruct (expired now p) eqn:X.
      * now rewrite (setCredentials_expired now d a t p c A T D X).
      * now rewrite (setCredentials_valid now (S d) a t p c A T D X).
    + change (setCredentials now (S (S d)) a c)
        with (setCredentials_body now (setCredentials now (S d)) a c).
      unfold setCredentials_body, _refreshCredentials. rewrite A. simpl _accessToken.
      unfold decode. rewrite T, D. discriminate.
  - now rewrite setCredentials_anonymous.
Qed.

(** C8. [setCredentials] starts from its argument alone, a field left
    out being [null].  With [null] or the empty string for access token
    the pair is stored as given, the [Authorization] header is removed
    and the profile is [null].  With a token that decodes to a profile
    not yet expired the pair is stored as given, the header is
    [Bearer <token>] and the profile is the decoded one.  With a token
    that decodes to an expired profile the client is logged out on the
    spot: both tokens [null], no header, no profile. *)
Theorem setCredentials_as_a_unit (now : Z) (depth : nat) (a : Credentials)
        (c : ApiClient) :
  2 <= depth ->
  (truthy_token (accessToken a) = false ->
   exists c',
     setCredentials now depth a c = Some (c', Normal tt)
     /\ _accessToken c' = accessToken a
     /\ _refreshToken c' = refreshToken a
     /\ Authorization c' = None
     /\ _userProfile c' = None)
  /\ (forall t p,
         accessToken a = Some t -> truthy_token (Some t) = true ->
         jwtDecode t = Normal p ->
         (expired now p = false ->
          exists c',
            setCredentials now depth a c = Some (c', Normal tt)
            /\ _accessToken c' = Some t
            /\ _refreshToken c' = refreshToken a
            /\ Authorization c' = Some ("Bearer " ++ t)
            /\ _userProfile c' = Some p
            /\ getSessionProfile c' = Normal (Some p))
         /\ (expired now p = true ->
             exists c',
               setCredentials now depth a c = Some (c', Normal tt)
               /\ _accessToken c' = None
               /\ _refreshToken c' = None
               /\ Authorization c' = None
               /\ _userProfile c' = None)).
Proof.
  intro L. destruct depth as [|[|d]]; try lia. split.
  - intro F. exists (signed_out a c).
    rewrite setCredentials_anonymous by exact F.
    destruct (signed_out_fields a c) as (P1 & P2 & P3 & P4 & _). auto.
  - intros t p A T D. split; intro X.
    + exists (signed_in now a t p c).
      rewrite (setCredentials_valid now (S d) a t p c A T D X).
      repeat split. unfold getSessionProfile. simpl.
      now apply decode_truthy.
    + exists (timed_out a t p c).
      rewrite (setCredentials_expired now d a t p c A T D X).
      repeat split.
Qed.

(** ** logout and me *)

Section Revoke.
Variables W Request : Type.
Variable _driver : Request -> W -> W * outcome value.
Variable revoke : Request.

(** C2. [logout] and [me] await the revoke request before anything
    else.  When it resolves on a client holding an access token, the
    local logout follows: both tokens [null], no [Authorization] header,
    no profile, [logout] emitted with the profile held before.  When it
    rejects, the rejection is what the caller gets and the client is
    left as it was.  [me] on a client without access token does nothing. *)
Theorem logout_follows_revoke (now : Z) (depth : nat) (w : W) (c : ApiClient) :
  1 <= depth ->
  (forall w' e,
      _driver revoke w = (w', Rejected e) ->
      logout _driver revoke now depth w c = Some (w', c, Rejected e)
      /\ (truthy_token (_accessToken c) = true ->
          me _driver revoke now depth w c = Some (w', c, Rejected e)))
  /\ (forall w' v,
         _driver revoke w = (w', Resolved v) ->
         truthy_token (_accessToken c) = true ->
         exists c',
           logout _driver revoke now depth w c = Some (w', c', Resolved tt)
           /\ me _driver revoke now depth w c = Some (w', c', Resolved tt)
           /\ _accessToken c' = None
           /\ _refreshToken c' = None
           /\ Authorization c' = None
           /\ _userProfile c' = None
           /\ events (super c')
              = (events (super c) ++ [Emit "logout" (_userProfile c)])%list)
  /\ (truthy_token (_accessToken c) = false ->
      me _driver revoke now depth w c = Some (w, c, Resolved tt)).
Proof.
  intro L. destruct depth as [|d]; [lia|]. split; [|split].
  - intros w' e E. unfold logout, me. rewrite E. split; [reflexivity|].
    now intros ->.
  - intros w' v E T.
    exists (with_super (emit "logout" (_userProfile c))
                       (signed_out no_credentials c)).
    unfold logout, me. rewrite E, T, (_localLogout_signed_in now d c T).
    simpl. repeat split.
    rewrite set_token_events. now destruct (persist c).
  - intro F. unfold me. now rewrite F.
Qed.

End Revoke.

(** ** The methodCallback of the constructor *)

(** C10. A method of the client reached through the single-segment
    short-circuit of the proxy and returning a falsy value ([undefined],
    [null], [false], [0], the empty string) gives the caller [true]: the
    trap returns [true], the path is consumed, and the effects of the
    method on the client stay. *)
Theorem falsy_result_becomes_true
        (methods : string ->
                   option (list value -> ApiClient -> ApiClient * completion value))
        (name : string)
        (f : list value -> ApiClient -> ApiClient * completion value)
        (args : list value) (c c' : ApiClient) (v : value)
        (target : Proxy.ProxyObj) (thisArg : Proxy.receiver) :
  methods name = Some f ->
  f args c = (c', Normal v) ->
  truthy v = false ->
  Proxy.handler_apply (methodCallback methods) target thisArg args
                      {| Proxy.paths := [Proxy.Ident name]; Proxy.world := c |}
  = ({| Proxy.paths := []; Proxy.world := c' |}, target,
     Proxy.Returned (VBool true)).
Proof.
  intros M F T. unfold Proxy.handler_apply. simpl.
  unfold methodCallback. rewrite M, F. unfold or_else. rewrite T. reflexivity.
Qed.

(** A truthy result goes through as it is. *)
Lemma truthy_result_is_returned
      (methods : string ->
                 option (list value -> ApiClient -> ApiClient * completion value))
      (name : string)
      (f : list value -> ApiClient -> ApiClient * completion value)
      (args : list value) (c c' : ApiClient) (v : value)
      (target : Proxy.ProxyObj) (thisArg : Proxy.receiver) :
  methods name = Some f ->
  f args c = (c', Normal v) ->
  truthy v = true ->
  Proxy.handler_apply (methodCallback methods) target thisArg args
                      {| Proxy.paths := [Proxy.Ident name]; Proxy.world := c |}
  = ({| Proxy.paths := []; Proxy.world := c' |}, target, Proxy.Returned v).
Proof.
  intros M F T. unfold Proxy.handler_apply. simpl.
  unfold methodCallback. rewrite M, F. unfold or_else. rewrite T.
  destruct v; try reflexivity. discriminate.
Qed.

End Session.

(** ** Closed runs, with the sample decoder *)

Section Examples.
#[local] Existing Instance Sample.jwt.

Example setCredentials_valid_pair :
  setCredentials 2000 2 valid_pair anonymous = Some (alice, Normal tt).
Proof. reflexivity. Qed.

(** The revoke request fails: [logout] and [me] reject and the client
    still holds the tokens, the header and the profile it had. *)
Lemma revoke_failure_keeps_credentials :
  logout network_down "/revoke" 2000 2 tt alice
  = Some (tt, alice, Rejected (Error "Network Error"))
  /\ me network_down "/revoke" 2000 2 tt alice
     = Some (tt, alice, Rejected (Error "Network Error"))
  /\ _accessToken alice = Some "valid.token"
  /\ _refreshToken alice = Some "refresh"
  /\ Authorization alice = Some "Bearer valid.token".
Proof. repeat split; reflexivity. Qed.

Lemma logout_follows_revoke_witness :
  (exists c',
      logout server_up "/revoke" 2000 2 tt alice = Some (tt, c', Resolved tt)
      /\ me server_up "/revoke" 2000 2 tt alice = Some (tt, c', Resolved tt)
      /\ _accessToken c' = None
      /\ _refreshToken c' = None
      /\ Authorization c' = None
      /\ _userProfile c' = None
      /\ events (super c')
         = [Emit "login" (Some 5000%Z); Emit "logout" (Some 5000%Z)])
  /\ logout network_down "/revoke" 2000 2 tt alice
     = Some (tt, alice, Rejected (Error "Network Error")).
Proof.
  split.
  - exact (proj1 (proj2 (logout_follows_revoke unit string server_up "/revoke"
                           2000 2 tt alice (le_S 1 1 (le_n 1))))
                 tt VNull eq_refl eq_refl).
  - exact (proj1 (proj1 (logout_follows_revoke unit string network_down "/revoke"
                           2000 2 tt alice (le_S 1 1 (le_n 1)))
                        tt (Error "Network Error") eq_refl)).
Defined.

(** A token that is not [null] and installs nothing: one that has
    expired, and the empty string. *)
Lemma expired_token_is_not_installed :
  (exists c',
      setCredentials 2000 2 expired_pair anonymous = Some (c', Normal tt)
      /\ _accessToken c' = None
      /\ _refreshToken c' = None
      /\ Authorization c' = None
      /\ _userProfile c' = None)
  /\ (exists c',
        setCredentials 2000 2 {| accessToken := Some ""; refreshToken := None |}
                       alice
        = Some (c', Normal tt)
        /\ _accessToken c' = Some ""
        /\ Authorization c' = None
        /\ _userProfile c' = None).
Proof.
  split; (eexists; split; [vm_compute; reflexivity | repeat split]).
Qed.

Lemma setCredentials_as_a_unit_witness :
  (exists c',
      setCredentials 2000 2 valid_pair anonymous = Some (c', Normal tt)
      /\ _accessToken c' = Some "valid.token"
      /\ _refreshToken c' = Some "refresh"
      /\ Authorization c' = Some "Bearer valid.token"
      /\ _userProfile c' = Some 5000%Z
      /\ getSessionProfile c' = Normal (Some 5000%Z))
  /\ (exists c',
        setCredentials 2000 2 no_credentials alice = Some (c', Normal tt)
        /\ _accessToken c' = None
        /\ _refreshToken c' = None
        /\ Authorization c' = None
        /\ _userProfile c' = None).
Proof.
  split.
  - exact (proj1 (proj2 (setCredentials_as_a_unit 2000 2 valid_pair anonymous
                           (le_n 2))
                        "valid.token" 5000%Z eq_refl eq_refl eq_refl)
                 eq_refl).
  - exact (proj1 (setCredentials_as_a_unit 2000 2 no_credentials alice (le_n 2))
                 eq_refl).
Defined.

Lemma connect_same_identity_noop_witness :
  connect established = established
  /\ sockets (connect established) = sockets established
  /\ _socket (connect established) = _socket established
  /\ connect (connect established) = connect established.
Proof.
  exact (connect_same_identity_noop established eq_refl (or_introl eq_refl)).
Defined.

(** [client.connect()] through the proxy: [connect] returns nothing, the
    caller reads [true]. *)
Lemma falsy_result_becomes_true_witness :
  Proxy.handler_apply (methodCallback (ApiClient_methods 2000))
                      Proxy.root Proxy.ThisChain []
                      {| Proxy.paths := [Proxy.Ident "connect"];
                         Proxy.world := anonymous |}
  = ({| Proxy.paths := []; Proxy.world := with_super connect anonymous |},
     Proxy.root, Proxy.Returned (VBool true)).
Proof.
  exact (falsy_result_becomes_true (ApiClient_methods 2000) "connect"
           (fun _ c => (with_super connect c, Normal VUndefined))
           [] anonymous (with_super connect anonymous) VUndefined
           Proxy.root Proxy.ThisChain eq_refl eq_refl eq_refl).
Defined.

End Examples.

End ClientSpec.

(* ================================================================== *)
(** * Further statements: chains of the call-path proxy *)
(* ================================================================== *)

Module ProxyMore.
Import Proxy Chain Sample.

Section Chains.
Context `{Lodash}.
Variables W R : Type.
Variable next : Descriptor -> W -> W * R.
Variable methodCallback : segment -> list value -> W -> W * completion value.

Lemma run_steps_app (s1 s2 : list step) (cur : ProxyObj) (this : receiver)
      (st st' : Store W) (p : ProxyObj) (t : receiver) :
  run_steps methodCallback s1 cur this st = (st', Built p t) ->
  run_steps methodCallback (s1 ++ s2) cur this st
  = run_steps methodCallback s2 p t st'.
Proof.
  revert cur this st. induction s1 as [|[prop|args] s1 IH]; intros cur this st; simpl.
  - intro E. inversion E; subst. reflexivity.
  - destruct (handler_get cur prop st) as [st1 [o|q]]; [intro E; inversion E|].
    apply IH.
  - destruct (handler_apply methodCallback cur this args st)
      as [[st1 t1] [v|q|e]]; try (intro E; inversion E; fail).
    apply IH.
Qed.

Lemma run_steps_access_ends (props : list string) (cur : ProxyObj)
      (this : receiver) (st : Store W) :
  Forall free_name props ->
  run_steps methodCallback (map Access props) cur this st
  = ({| paths := (paths st ++ map Ident props)%list; world := world st |},
     match props with
     | [] => Built cur this
     | _ :: _ => Built {| own_get := Some (VObj []) |} ThisChain
     end).
Proof.
  revert cur this st. induction props as [|prop props IH]; intros cur this st F.
  - simpl. rewrite app_nil_r. now destruct st.
  - inversion F as [|? ? Hp Hrest]; subst. simpl. unfold handler_get.
    rewrite (ProxySpec.hasOwnProperty_child prop _ cur Hp).
    rewrite (IH _ _ _ Hrest). simpl. rewrite <- app_assoc. simpl.
    now destruct props.
Qed.

Lemma apply_long_path (target : ProxyObj) (this : receiver)
      (args : list value) (st : Store W) :
  2 <= length (paths st) ->
  handler_apply methodCallback target this args st = apply_tail this args st.
Proof.
  unfold handler_apply.
  destruct (paths st) as [|m [|m' rest]]; simpl; intro L; try lia; reflexivity.
Qed.

Lemma steps_then_invoke (props : list string)
        (args : list value) (st : Store W) :
  2 <= length props ->
  Forall free_name props ->
  run_steps methodCallback (map Access props ++ [Invoke args]) root
            ThisUndefined st
  = ({| paths := (paths st ++ narrowed props args)%list; world := world st |},
     Built {| own_get := Some (staged args) |} ThisUndefined).
Proof.
  intros L F.
  pose proof (run_steps_access_ends props root ThisUndefined st F) as A.
  assert (B : match props with
              | [] => Built root ThisUndefined
              | _ :: _ => Built {| own_get := Some (VObj []) |} ThisChain
              end = Built {| own_get := Some (VObj []) |} ThisChain).
  { destruct props; [simpl in L; lia | reflexivity]. }
  rewrite B in A. rewrite (run_steps_app _ _ _ _ _ _ _ _ A).
  simpl. rewrite apply_long_path
    by (simpl; rewrite length_app, length_map; lia).
  unfold apply_tail, crudProxy, narrowed, staged, query_of. simpl.
  destruct (is_object (default_object (hd VUndefined args))); simpl.
  - now rewrite app_nil_r.
  - now rewrite app_assoc.
Qed.

(** X1. After at least two property reads, an invocation never consults
    [methodCallback]: an argument of type object (or none at all) becomes
    the staged query and the path is untouched; any other argument goes
    to the end of the path as a literal and the staged query is [{}]. *)
Theorem invocation_stages_or_narrows (props : list string)
        (args : list value) (st : Store W) :
  2 <= length props ->
  Forall free_name props ->
  run_steps methodCallback (map Access props ++ [Invoke args]) root
            ThisUndefined st
  = ({| paths := (paths st ++ narrowed props args)%list; world := world st |},
     Built {| own_get := Some (staged args) |} ThisUndefined).
Proof. exact (steps_then_invoke props args st). Qed.

Lemma staged_defined (args : list value) :
  default_object (staged args) = staged args.
Proof.
  unfold staged, query_of. destruct (hd VUndefined args) as [| | | | | | |];
    reflexivity.
Qed.

(** A chain ended by an invocation, then a terminal action: the action
    runs on the proxy and the path the invocation leaves. *)
Lemma chain_action (props : list string) (args : list value) (w : W)
      (a : action) :
  2 <= length props ->
  Forall free_name props ->
  run_chain next methodCallback (map Access props ++ [Invoke args]) a (fresh w)
  = let (st, c) := run_action next a {| own_get := Some (staged args) |}
                              {| paths := narrowed props args; world := w |} in
    (st, Some c).
Proof.
  intros L F. unfold run_chain.
  rewrite (steps_then_invoke props args (fresh w) L F). reflexivity.
Qed.


(** X2. A chain of at least two property reads, an invocation and a
    terminal action compiles one request whose URL is that of the reads
    followed by the literal argument, if any.  [create] sends its body
    and drops the staged query; [update] sends body and staged query;
    [delete()] and the implicit read send the staged query with an empty
    body; [valueOf] compiles the same [get] request without handing it to
    [next].  Each leaves the path empty. *)
Theorem chain_compiles_one_request (props : list string) (args : list value)
        (w : W) :
  2 <= length props ->
  Forall free_name props ->
  let chain := (map Access props ++ [Invoke args])%list in
  let u := pathsToUrl (narrowed props args) in
  let sent (d : Descriptor) : Store W * option (Compiled R) :=
    ({| paths := []; world := fst (next d w) |}, Some (Sent d (snd (next d w)))) in
  (forall b,
      run_chain next methodCallback chain (Create b) (fresh w)
      = sent {| url := u; method := POST; get := VObj [];
                body := default_object b |})
  /\ (forall b,
         run_chain next methodCallback chain (Update b) (fresh w)
         = sent {| url := u; method := PATCH; get := staged args;
                   body := default_object b |})
  /\ run_chain next methodCallback chain (Delete []) (fresh w)
     = sent {| url := u; method := DELETE; get := staged args;
               body := VObj [] |}
  /\ run_chain next methodCallback chain Await (fresh w)
     = sent {| url := u; method := GET; get := staged args; body := VObj [] |}
  /\ run_chain next methodCallback chain ValueOf (fresh w)
     = (fresh w,
        Some (Plain {| url := u; method := GET; get := staged args;
                       body := VObj [] |})).
Proof.
  intros L F chain u sent.
  assert (E : forall a,
             run_chain next methodCallback chain a (fresh w)
             = let (st, c) := run_action next a {| own_get := Some (staged args) |}
                                         {| paths := narrowed props args;
                                            world := w |} in
               (st, Some c))
    by (intro a; exact (chain_action props args w a L F)).
  subst sent u.
  repeat split; intros; rewrite E; simpl;
    unfold create, update, delete, valueOf, then_, this_get, send, deliverState;
    simpl; rewrite ?staged_defined;
    try (destruct (next _ w); reflexivity); reflexivity.
Qed.

(** X3. A chain that is not compiled keeps its segments: after property
    reads left without terminal action, or closed by a [delete] that
    throws on its arguments, the path still holds their names, and the
    next chain from the same root compiles a URL that begins with them. *)
Theorem uncompiled_chain_leaks (props1 props2 : list string) (w : W) :
  Forall free_name props1 ->
  Forall free_name props2 ->
  (forall x xs,
      paths (fst (run_chain next methodCallback (map Access props1)
                            (Delete (x :: xs)) (fresh w)))
      = map Ident props1)
  /\ paths (fst (run_steps methodCallback (map Access props1) root
                           ThisUndefined (fresh w)))
     = map Ident props1
  /\ forall st body,
      paths st = map Ident props1 ->
      exists d r w2,
        run_chain next methodCallback (map Access props2) (Create body) st
        = ({| paths := []; world := w2 |}, Some (Sent d r))
        /\ url d = pathsToUrl (map Ident (props1 ++ props2)).
Proof.
  intros F1 F2.
  pose proof (run_steps_access_ends props1 root ThisUndefined (fresh w) F1) as A.
  repeat split.
  - intros x xs. unfold run_chain. rewrite A. simpl.
    destruct props1; reflexivity.
  - now rewrite A.
  - intros st body P.
    pose proof (run_steps_access_ends props2 root ThisUndefined st F2) as B.
    unfold run_chain. rewrite B.
    assert (C : exists p t,
               match props2 with
               | [] => Built root ThisUndefined
               | _ :: _ => Built {| own_get := Some (VObj []) |} ThisChain
               end = Built p t) by (destruct props2; eauto).
    destruct C as (p & t & ->). simpl.
    unfold create, send, deliverState. simpl.
    destruct (next _ (world st)) as [w2 r] eqn:N.
    eexists _, r, w2. split; [reflexivity|]. simpl.
    now rewrite P, map_app.
Qed.

End Chains.

Section Examples.
#[local] Existing Instance Sample.lodash.

Lemma free_names_entities_user : Forall free_name ["entities"; "user"].
Proof. repeat constructor. Qed.

(** [proxy.entities.user('my-id')] and [proxy.entities.user({id: 'my-id'})]. *)
Lemma invocation_stages_or_narrows_witness :
  run_steps default_methodCallback
            [Access "entities"; Access "user"; Invoke [VStr "my-id"]]
            root ThisUndefined (fresh tt)
  = ({| paths := [Ident "entities"; Ident "user"; Literal (VStr "my-id")];
        world := tt |},
     Built {| own_get := Some (VObj []) |} ThisUndefined)
  /\ run_steps default_methodCallback
               [Access "entities"; Access "user";
                Invoke [VObj [("id", VStr "my-id")]]]
               root ThisUndefined (fresh tt)
     = ({| paths := [Ident "entities"; Ident "user"]; world := tt |},
        Built {| own_get := Some (VObj [("id", VStr "my-id")]) |} ThisUndefined).
Proof.
  split.
  - exact (invocation_stages_or_narrows unit default_methodCallback
             ["entities"; "user"] [VStr "my-id"] (fresh tt)
             (le_n 2) free_names_entities_user).
  - exact (invocation_stages_or_narrows unit default_methodCallback
             ["entities"; "user"] [VObj [("id", VStr "my-id")]] (fresh tt)
             (le_n 2) free_names_entities_user).
Defined.

(** [proxy.entities.user({id: 'my-id'}).update({firstName: 'Martin'})]. *)
Lemma chain_compiles_one_request_witness :
  let d := {| url := "/entities/user"; method := PATCH;
              get := VObj [("id", VStr "my-id")];
              body := VObj [("firstName", VStr "Martin")] |} in
  run_chain default_next default_methodCallback
            [Access "entities"; Access "user";
             Invoke [VObj [("id", VStr "my-id")]]]
            (Update (VObj [("firstName", VStr "Martin")])) (fresh tt)
  = (fresh tt, Some (Sent d d)).
Proof.
  exact (proj1 (proj2 (chain_compiles_one_request
                         unit Descriptor default_next default_methodCallback
                         ["entities"; "user"] [VObj [("id", VStr "my-id")]] tt
                         (le_n 2) free_names_entities_user))
               (VObj [("firstName", VStr "Martin")])).
Defined.

(** [proxy.entities.user.delete('x')] throws; [proxy.product.create({})]
    then compiles [/entities/user/product]. *)
Lemma uncompiled_chain_leaks_witness :
  paths (fst (run_chain default_next default_methodCallback
                        [Access "entities"; Access "user"]
                        (Delete [VStr "x"]) (fresh tt)))
  = [Ident "entities"; Ident "user"]
  /\ exists d r w2,
      run_chain default_next default_methodCallback [Access "product"]
                (Create (VObj []))
                {| paths := [Ident "entities"; Ident "user"]; world := tt |}
      = ({| paths := []; world := w2 |}, Some (Sent d r))
      /\ url d = "/entities/user/product".
Proof.
  pose (T := uncompiled_chain_leaks unit Descriptor default_next
               default_methodCallback ["entities"; "user"] ["product"] tt
               free_names_entities_user
               (Forall_cons "product" eq_refl (Forall_nil _))).
  split.
  - exact (proj1 T (VStr "x") []).
  - exact (proj2 (proj2 T)
                 {| paths := [Ident "entities"; Ident "user"]; world := tt |}
                 (VObj []) eq_refl).
Defined.

End Examples.
End ProxyMore.

(* ================================================================== *)
(** * Further statements: the client behind the proxy *)
(* ================================================================== *)

Module ClientMore.
Import Proxy Chain Client Sample.

Section Surface.
Context `{Jwt}.

(** X4. Through the proxy of the client, calling a single name that is
    not a method of the client ([client.user('id')]) throws a [TypeError]
    out of [methodCallback]: no proxy comes back to chain on, the path is
    left empty and the client is untouched. *)
Theorem unknown_method_throws
        (methods : string ->
                   option (list value -> ApiClient -> ApiClient * completion value))
        (name : string) (args : list value) (c : ApiClient) :
  free_name name ->
  methods name = None ->
  run_steps (methodCallback methods) [Access name; Invoke args]
            root ThisUndefined (fresh c)
  = (fresh c, Broken (TypeError "$this[method] is not a function")).
Proof.
  intros F M. simpl. unfold handler_get.
  rewrite (ProxySpec.hasOwnProperty_child name _ root F). simpl.
  unfold handler_apply. simpl. now rewrite M.
Qed.

End Surface.

Section Examples.
#[local] Existing Instance Sample.jwt.

Lemma unknown_method_throws_witness :
  run_steps (methodCallback (ApiClient_methods 2000))
            [Access "user"; Invoke [VStr "id"]]
            root ThisUndefined (fresh anonymous)
  = (fresh anonymous, Broken (TypeError "$this[method] is not a function")).
Proof.
  exact (unknown_method_throws (ApiClient_methods 2000) "user" [VStr "id"]
                               anonymous eq_refl eq_refl).
Defined.

End Examples.
End ClientMore.

(* ================================================================== *)
(** * Further statements: fetch and the entity methods *)
(* ================================================================== *)

Module RestSpec.
Import Proxy Chain Rest Sample.

Lemma has_key_In (k : string) (t : list (string * value)) :
  has_key k t = true <-> In k (map fst t).
Proof.
  unfold has_key. rewrite existsb_exists, in_map_iff. split.
  - intros ([k' v] & I & E). simpl in E. apply String.eqb_eq in E. subst k.
    now exists (k', v).
  - intros ([k' v] & E & I). simpl in E. subst k. exists (k', v). split; [exact I|].
    apply String.eqb_refl.
Qed.

Lemma has_key_app (k : string) (a b : list (string * value)) :
  has_key k (a ++ b) = has_key k a || has_key k b.
Proof. apply existsb_app. Qed.

Lemma below_no_key (n : N) (k : string) (I : list (string * value)) :
  below n I -> (forall m, array_index k = Some m -> (n <= m)%N) ->
  has_key k I = false.
Proof.
  intros B L. destruct (has_key k I) eqn:E; [|reflexivity].
  apply has_key_In, in_map_iff in E as ([k' v] & <- & I').
  unfold below in B. rewrite Forall_forall in B.
  destruct (B _ I') as (m & A & Lt). specialize (L m A). lia.
Qed.

Lemma names_no_index_key (k : string) (n : N) (t : list (string * value)) :
  forallb is_name t = true -> array_index k = Some n -> has_key k t = false.
Proof.
  intros NO A. destruct (has_key k t) eqn:E; [|reflexivity].
  apply has_key_In, in_map_iff in E as ([k' v] & <- & I').
  rewrite forallb_forall in NO.
  specialize (NO _ I'). unfold is_name, is_index in NO. now rewrite A in NO.
Qed.

(** A new index beyond the indices of the target is listed behind them
    and ahead of the names. *)
Lemma insert_index_after (n : N) (k : string) (v : value)
      (I t : list (string * value)) :
  below n I -> forallb is_name t = true ->
  insert_index n k v (I ++ t) = (I ++ (k, v) :: t)%list.
Proof.
  intros B NO. induction I as [|[k' v'] I IH]; simpl.
  - destruct t as [|[k' v'] t]; [reflexivity|]. simpl in NO.
    unfold is_name, is_index in NO. simpl in NO. simpl.
    destruct (array_index k'); [discriminate | reflexivity].
  - inversion B as [|? ? (m & A & Lt) B']; subst. simpl in A. rewrite A.
    apply N.ltb_lt in Lt. rewrite Lt. now rewrite IH.
Qed.

Lemma names_own_order (lo : N) (t : list (string * value)) :
  forallb is_name t = true -> own_order_from lo t = true.
Proof.
  destruct t as [|[k v] t]; [reflexivity|]. intro NO. simpl in *.
  unfold is_name at 1, is_index in NO. simpl in NO.
  destruct (array_index k); [discriminate | exact NO].
Qed.

(** [Object.assign] from a source in own-key order whose keys are new to
    the target: its indices, all beyond those of the target, are listed
    behind the target's and ahead of every name; its names go last. *)
Lemma assign_own_order (b : list (string * value)) :
  forall (lo : N) (I t : list (string * value)),
    own_order_from lo b = true ->
    NoDup (map fst b) ->
    ~ In "__proto__" (map fst b) ->
    below lo I ->
    forallb is_name t = true ->
    (forall k, In k (map fst t) -> ~ In k (map fst b)) ->
    assign (I ++ t) b
    = (I ++ filter is_index b ++ t ++ filter is_name b)%list.
Proof.
  unfold assign. induction b as [|[k v] b IH]; intros lo I t O N NP B NO D; simpl.
  - now rewrite app_nil_r.
  - inversion N as [|? ? Nk Nb]; subst. simpl in O. unfold is_name at 1.
    assert (Pk : (k =? "__proto__") = false).
    { destruct (String.eqb_spec k "__proto__") as [->|]; [|reflexivity].
      elim NP. now left. }
    assert (NP' : ~ In "__proto__" (map fst b)) by (intro J; apply NP; now right).
    destruct (array_index k) as [n|] eqn:A.
    + assert (Ik : is_index (k, v) = true) by (unfold is_index; simpl; now rewrite A).
      rewrite Ik. simpl.
      apply andb_prop in O as [L O]. apply N.leb_le in L.
      assert (Bn : below n I).
      { unfold below in *. rewrite Forall_forall in *. intros kv J.
        destruct (B kv J) as (m & Am & Lt). exists m. split; [exact Am | lia]. }
      assert (S : set_prop k v (I ++ t) = ((I ++ [(k, v)]) ++ t)%list).
      { unfold set_prop.
        rewrite has_key_app, (names_no_index_key k n t NO A), orb_false_r.
        rewrite (below_no_key lo k I B)
          by (intros m A'; rewrite A in A'; inversion A'; subst; exact L).
        rewrite Pk, A, (insert_index_after n k v I t Bn NO).
        now rewrite <- app_assoc. }
      rewrite S.
      rewrite (IH (N.succ n) (I ++ [(k, v)])%list t O Nb NP').
      * rewrite <- !app_assoc. reflexivity.
      * unfold below in *. rewrite Forall_app. split.
        -- rewrite Forall_forall in *. intros kv J.
           destruct (Bn kv J) as (m & Am & Lt). exists m. split; [exact Am | lia].
        -- constructor; [|constructor]. exists n. split; [exact A | lia].
      * exact NO.
      * intros k' J K. apply (D k' J). now right.
    + assert (Ik : is_index (k, v) = false) by (unfold is_index; simpl; now rewrite A).
      rewrite Ik. simpl.
      assert (S : set_prop k v (I ++ t) = (I ++ (t ++ [(k, v)]))%list).
      { unfold set_prop. rewrite has_key_app.
        rewrite (below_no_key lo k I B)
          by (intros m A'; rewrite A in A'; discriminate).
        destruct (has_key k t) eqn:E.
        - apply has_key_In in E. elim (D k E). now left.
        - simpl. now rewrite Pk, A, <- app_assoc. }
      rewrite S.
      rewrite (IH lo I (t ++ [(k, v)])%list (names_own_order lo b O) Nb NP' B).
      * rewrite <- !app_assoc. reflexivity.
      * rewrite forallb_app. simpl. rewrite NO. unfold is_name. now rewrite Ik.
      * intros k' J K. rewrite map_app, in_app_iff in J. simpl in J.
        destruct J as [J|[<-|[]]]; [|exact (Nk K)].
        apply (D k' J). now right.
Qed.

(** Onto a target that has names only. *)
Lemma assign_onto_names (t b : list (string * value)) :
  own_order b = true ->
  NoDup (map fst b) ->
  ~ In "__proto__" (map fst b) ->
  forallb is_name t = true ->
  (forall k, In k (map fst t) -> ~ In k (map fst b)) ->
  assign t b = (filter is_index b ++ t ++ filter is_name b)%list.
Proof.
  intros O N NP NO D.
  exact (assign_own_order b 0%N [] t O N NP (Forall_nil _) NO D).
Qed.

(** A list in own-key order is its indices followed by its names. *)
Lemma own_order_split (b : list (string * value)) (lo : N) :
  own_order_from lo b = true ->
  (filter is_index b ++ filter is_name b)%list = b.
Proof.
  revert lo. induction b as [|[k v] b IH]; intros lo O; [reflexivity|].
  simpl in *. unfold is_name at 1. destruct (array_index k) as [n|] eqn:A.
  - assert (Ik : is_index (k, v) = true) by (unfold is_index; simpl; now rewrite A).
    rewrite Ik. simpl. apply andb_prop in O as [_ O]. now rewrite (IH _ O).
  - assert (Ik : is_index (k, v) = false) by (unfold is_index; simpl; now rewrite A).
    rewrite Ik. simpl.
    assert (E : filter is_index b = []).
    { clear IH. induction b as [|kv b IH]; [reflexivity|]. simpl in *.
      apply andb_prop in O as [O1 O2]. unfold is_name in O1.
      destruct (is_index kv); [discriminate|]. now apply IH. }
    rewrite E. simpl. f_equal.
    clear E IH. induction b as [|kv b IH]; [reflexivity|]. simpl in *.
    apply andb_prop in O as [O1 O2]. rewrite O1. f_equal. now apply IH.
Qed.

Lemma lookup_replace (k : string) (v : value) (t : list (string * value)) :
  has_key k t = true -> Envelope.lookup k (replace k v t) = Some v.
Proof.
  induction t as [|[k' v'] t IH]; simpl; [discriminate|].
  destruct (String.eqb_spec k k') as [->|D]; simpl.
  - now rewrite String.eqb_refl.
  - destruct (String.eqb_spec k k') as [E|_]; [now elim D | exact IH].
Qed.

Lemma lookup_insert_index (n : N) (k : string) (v : value)
      (t : list (string * value)) :
  has_key k t = false -> Envelope.lookup k (insert_index n k v t) = Some v.
Proof.
  induction t as [|[k' v'] t IH]; simpl.
  - now rewrite String.eqb_refl.
  - destruct (String.eqb_spec k k') as [->|D]; simpl; [discriminate|]. intro K.
    destruct (array_index k') as [m|]; [destruct (N.ltb m n)|]; simpl;
      rewrite ?String.eqb_refl; try reflexivity.
    destruct (String.eqb_spec k k') as [E|_]; [now elim D | exact (IH K)].
Qed.

Lemma lookup_append (k : string) (v : value) (t : list (string * value)) :
  has_key k t = false -> Envelope.lookup k (t ++ [(k, v)]) = Some v.
Proof.
  induction t as [|[k' v'] t IH]; simpl.
  - now rewrite String.eqb_refl.
  - destruct (String.eqb k k'); simpl; [discriminate | exact IH].
Qed.

Lemma lookup_set_prop (k : string) (v : value) (t : list (string * value)) :
  k <> "__proto__" -> Envelope.lookup k (set_prop k v t) = Some v.
Proof.
  intro NP. unfold set_prop. destruct (has_key k t) eqn:K.
  - now apply lookup_replace.
  - destruct (String.eqb_spec k "__proto__") as [E|_]; [now elim NP|].
    destruct (array_index k); [now apply lookup_insert_index | now apply lookup_append].
Qed.

Lemma join_element_truthy (v : value) :
  truthy v = true -> join_element v = ToString v.
Proof. destruct v; simpl; intro T; try reflexivity; discriminate. Qed.

Section Fetch.
Context `{Lodash}.
Variable W : Type.
Variable methodCallback : segment -> list value -> W -> W * completion value.

(** X5. From the chain to the driver: [client.a.b(id).update(body)],
    with [id] not of type object and [body] a plain object, hands
    [this.driver] a [patch] request on the URL of the path closed by the
    literal [id], with empty [params] and the body as [data]; with a
    non-empty plain query in place of [id], the query travels in [data]
    under [$params], listed behind the fields of the body named by an
    array index and ahead of all its other fields.  The body is given by
    its own fields in own-key order, none of them named [__proto__]. *)
Theorem chain_reaches_driver (props : list string) (arg : value)
        (b : list (string * value)) (w : W) :
  2 <= length props ->
  Forall free_name props ->
  NoDup (map fst b) ->
  own_order b = true ->
  ~ In "__proto__" (map fst b) ->
  (is_object arg = false -> is_undefined arg = false ->
   exists d,
     run_chain (next_fetch W) methodCallback (map Access props ++ [Invoke [arg]])
               (Update (VObj b)) (fresh w)
     = (fresh w,
        Some (Sent d (Some (Normal
                {| url := pathsToUrl (map Ident props ++ [Literal arg]);
                   method := Some PATCH; data := VObj b;
                   params := VObj [] |})))))
  /\ (forall q,
         arg = VObj q -> q <> [] -> ~ In "$params" (map fst b) ->
         exists d,
           run_chain (next_fetch W) methodCallback
                     (map Access props ++ [Invoke [arg]])
                     (Update (VObj b)) (fresh w)
           = (fresh w,
              Some (Sent d (Some (Normal
                      {| url := pathsToUrl (map Ident props);
                         method := Some PATCH;
                         data := VObj (filter is_index b
                                       ++ ("$params", VObj q) :: filter is_name b);
                         params := VObj [] |}))))).
Proof.
  intros L F N O NPr. split.
  - intros Ob U. eexists.
    rewrite (ProxyMore.chain_action W _ (next_fetch W) methodCallback
                                    props [arg] w (Update (VObj b)) L F).
    unfold narrowed, staged, query_of. simpl.
    assert (DO : default_object arg = arg) by (destruct arg; try reflexivity; discriminate).
    rewrite DO, Ob. simpl.
    unfold update, this_get, send, deliverState, next_fetch, fetch. simpl.
    rewrite (assign_onto_names [] b O N NPr eq_refl) by (intros k []).
    simpl. rewrite (own_order_split b 0%N O). reflexivity.
  - intros q -> Q NP. eexists.
    rewrite (ProxyMore.chain_action W _ (next_fetch W) methodCallback
                                    props [VObj q] w (Update (VObj b)) L F).
    unfold narrowed, staged, query_of. simpl. rewrite app_nil_r.
    unfold update, this_get, send, deliverState, next_fetch, fetch. simpl.
    destruct q as [|kv q]; [now elim Q|]. simpl.
    rewrite (assign_onto_names [("$params", _)] b O N NPr eq_refl).
    + reflexivity.
    + intros k [<-|[]]. exact NP.
Qed.

End Fetch.

(** X6. [read], [update] and [delete] address one entry by the same URL:
    for a truthy [entity] and a truthy [id] that is not of type object,
    each builds its request on [/entity/id]. *)
Theorem entry_methods_share_url (entity id u p1 p2 p3 : value) :
  truthy entity = true ->
  truthy id = true ->
  is_object id = false ->
  let address := "/" ++ ToString entity ++ "/" ++ ToString id in
  (exists c, read entity id VUndefined p1 = Normal c /\ url c = address)
  /\ (exists c, update entity id u p2 = Normal c /\ url c = address)
  /\ (exists c, delete entity id p3 = Some (Normal c) /\ url c = address).
Proof.
  intros E I O address. subst address. repeat split.
  - unfold read. rewrite E, I. simpl. rewrite E, I. simpl.
    eexists. split; [reflexivity|]. simpl.
    unfold Array_join. simpl.
    rewrite (join_element_truthy _ E), (join_element_truthy _ I).
    rewrite ?ProxySpec.append_assoc. reflexivity.
  - unfold update. rewrite E, I. simpl. eauto.
  - unfold delete. rewrite O, I. eexists. split; [reflexivity|]. simpl.
    rewrite ?ProxySpec.append_assoc. reflexivity.
Qed.

(** X7. [delete] names the entry in the URL only for a truthy [id] that
    is not of type object.  With an object, an array or [null] for [id],
    and with a falsy [id] (left out, [0], the empty string, [false]),
    the request is a [delete] on the URL of the entity itself; an [id] of
    type object is written under [id] into the caller's [params]. *)
Theorem delete_without_entry_id (entity id params : value) :
  is_object id = true \/ truthy id = false ->
  (forall c,
      delete entity id params = Some (Normal c) ->
      url c = "/" ++ ToString entity /\ method c = Some DELETE)
  /\ (is_object id = true ->
      forall fields,
        params = VObj fields ->
        exists fields',
          delete entity id params
          = Some (Normal {| url := "/" ++ ToString entity;
                            method := Some DELETE; data := VUndefined;
                            params := VObj fields' |})
          /\ Envelope.lookup "id" fields' = Some id).
Proof.
  intro C. split.
  - intros c. unfold delete. destruct (is_object id) eqn:O.
    + destruct (default_object params); intro X; inversion X; subst; auto.
    + destruct C as [C|C]; [discriminate|]. rewrite C.
      intro X; inversion X; subst; auto.
  - intros O fields ->. unfold delete. rewrite O. simpl.
    eexists. split; [reflexivity|]. apply lookup_set_prop. discriminate.
Qed.

Section Examples.
#[local] Existing Instance Sample.lodash.

(** [client.entities.user(123).update({ name: 'Martin' })], and
    [client.entities.user({ active: true }).update({ 7: 'x', name: 'Martin' })]. *)
Lemma chain_reaches_driver_witness :
  (exists d,
      run_chain (next_fetch unit) default_methodCallback
                [Access "entities"; Access "user"; Invoke [VNum 123]]
                (Update (VObj [("name", VStr "Martin")])) (fresh tt)
      = (fresh tt,
         Some (Sent d (Some (Normal
                 {| url := "/entities/user/123"; method := Some PATCH;
                    data := VObj [("name", VStr "Martin")];
                    params := VObj [] |})))))
  /\ exists d,
      run_chain (next_fetch unit) default_methodCallback
                [Access "entities"; Access "user";
                 Invoke [VObj [("active", VBool true)]]]
                (Update (VObj [("7", VStr "x"); ("name", VStr "Martin")]))
                (fresh tt)
      = (fresh tt,
         Some (Sent d (Some (Normal
                 {| url := "/entities/user"; method := Some PATCH;
                    data := VObj [("7", VStr "x");
                                  ("$params", VObj [("active", VBool true)]);
                                  ("name", VStr "Martin")];
                    params := VObj [] |})))).
Proof.
  split.
  - refine (proj1 (chain_reaches_driver unit default_methodCallback
                    ["entities"; "user"] (VNum 123) [("name", VStr "Martin")] tt
                    (le_n 2) ProxyMore.free_names_entities_user
                    (@NoDup_cons string "name" [] (fun x => x) (NoDup_nil string))
                    eq_refl _)
                 eq_refl eq_refl).
    simpl. intuition discriminate.
  - refine (proj2 (chain_reaches_driver unit default_methodCallback
                     ["entities"; "user"] (VObj [("active", VBool true)])
                     [("7", VStr "x"); ("name", VStr "Martin")] tt
                     (le_n 2) ProxyMore.free_names_entities_user _ eq_refl _)
                  [("active", VBool true)] eq_refl _ _).
    + repeat constructor; simpl; intuition discriminate.
    + simpl. intuition discriminate.
    + discriminate.
    + simpl. intuition discriminate.
Defined.

End Examples.

Lemma entry_methods_share_url_witness :
  (exists c, read (VStr "product") (VStr "42") VUndefined VUndefined = Normal c
             /\ url c = "/product/42")
  /\ (exists c, update (VStr "product") (VStr "42") (VObj []) VUndefined = Normal c
                /\ url c = "/product/42")
  /\ (exists c, delete (VStr "product") (VStr "42") VUndefined = Some (Normal c)
                /\ url c = "/product/42").
Proof.
  exact (entry_methods_share_url (VStr "product") (VStr "42") (VObj [])
                                 VUndefined VUndefined VUndefined
                                 eq_refl eq_refl eq_refl).
Defined.

(** [delete('product')] and [delete('product', ['a', 'b'])]. *)
Lemma delete_without_entry_id_witness :
  (forall c,
      delete (VStr "product") VUndefined VUndefined = Some (Normal c) ->
      url c = "/product" /\ method c = Some DELETE)
  /\ exists fields',
      delete (VStr "product") (VArr [VStr "a"; VStr "b"]) (VObj [])
      = Some (Normal {| url := "/product"; method := Some DELETE;
                        data := VUndefined; params := VObj fields' |})
      /\ Envelope.lookup "id" fields' = Some (VArr [VStr "a"; VStr "b"]).
Proof.
  split.
  - exact (proj1 (delete_without_entry_id (VStr "product") VUndefined VUndefined
                                          (or_intror eq_refl))).
  - exact (proj2 (delete_without_entry_id (VStr "product")
                                          (VArr [VStr "a"; VStr "b"]) (VObj [])
                                          (or_introl eq_refl))
                 eq_refl [] eq_refl).
Defined.

End RestSpec.

(* ================================================================== *)
(** * Further statements: the cache pipeline *)
(* ================================================================== *)

Module CacheMore.
Import Cache Offer Sample MoreSample.

Section Requests.
Variables W Request Id : Type.
Variable objectHash : Request -> Id.
Variable encodeParams : Request -> Request.

Lemma req_pass_offered (id : Id) (r : Request)
      (cache : list (CacheHook W Request Id)) (i : nat) (s : Sys W)
      (res0 : value) :
  match Promise_each (combine (seq i (length cache)) cache)
                     (req_callback W Request Id id r) (s, res0) with
  | (s', res, Resolved _) => (s', Resolved res)
  | (s', _, Rejected e) => (s', Rejected e)
  | (s', _, Pending) => (s', Pending)
  end
  = ({| world := fst (fst (offered id r cache i (world s) res0));
        trace := (trace s ++ snd (fst (offered id r cache i (world s) res0)))%list |},
     snd (offered id r cache i (world s) res0)).
Proof.
  revert i s res0. induction cache as [|h rest IH]; intros i s res0; simpl.
  - destruct s. simpl. now rewrite app_nil_r.
  - unfold log. simpl. destruct (req h id r (world s)) as [w' [v|e|]]; simpl;
      try reflexivity.
    rewrite IH. simpl.
    destruct (offered id r rest (S i) w' v) as [[w'' evs] o]. simpl.
    now rewrite <- app_assoc.
Qed.

Lemma proxyCacheReq_offered (id : Id) (r : Request)
      (cache : list (CacheHook W Request Id)) (s : Sys W) :
  proxyCacheReq cache id r s
  = ({| world := fst (fst (offered id r cache 0 (world s) VUndefined));
        trace := (trace s
                  ++ snd (fst (offered id r cache 0 (world s) VUndefined)))%list |},
     snd (offered id r cache 0 (world s) VUndefined)).
Proof. unfold proxyCacheReq, indexed. apply req_pass_offered. Qed.

Lemma offered_to_the_last (id : Id) (r : Request)
      (front : list (CacheHook W Request Id)) (last : CacheHook W Request Id)
      (v : value) (i : nat) (w : W) (res0 : value) :
  Forall (req_resolves id r) front ->
  (forall x, exists x', req last id r x = (x', Resolved v)) ->
  exists wf,
    offered id r (front ++ [last]) i w res0
    = (wf, map ReqCalled (seq i (length front + 1)), Resolved v).
Proof.
  intros F L. revert i w res0.
  induction front as [|h front IH]; intros i w res0; simpl.
  - destruct (L w) as (w' & E). rewrite E. eauto.
  - inversion F as [|? ? Hh Hf]; subst.
    destruct (Hh w) as (w' & v0 & E). rewrite E.
    destruct (IH Hf (S i) w' v0) as (wf & O). rewrite O. eauto.
Qed.

Lemma offered_to_the_failure (id : Id) (r : Request)
      (front back : list (CacheHook W Request Id)) (h : CacheHook W Request Id)
      (e : exn) (i : nat) (w : W) (res0 : value) :
  Forall (req_resolves id r) front ->
  (forall x, exists x', req h id r x = (x', Rejected e)) ->
  exists wf,
    offered id r (front ++ h :: back) i w res0
    = (wf, map ReqCalled (seq i (length front + 1)), Rejected e).
Proof.
  intros F L. revert i w res0.
  induction front as [|h0 front IH]; intros i w res0; simpl.
  - destruct (L w) as (w' & E). rewrite E. eauto.
  - inversion F as [|? ? Hh Hf]; subst.
    destruct (Hh w) as (w' & v0 & E). rewrite E.
    destruct (IH Hf (S i) w' v0) as (wf & O). rewrite O. eauto.
Qed.

Lemma offered_events (id : Id) (r : Request)
      (cache : list (CacheHook W Request Id)) (i : nat) (w : W) (res0 : value) :
  forall ev, In ev (snd (fst (offered id r cache i w res0))) ->
             exists k, ev = ReqCalled k.
Proof.
  revert i w res0. induction cache as [|h rest IH]; intros i w res0 ev; simpl.
  - intros [].
  - destruct (req h id r w) as [w' [v|e|]]; simpl.
    + specialize (IH (S i) w' v ev).
      destruct (offered id r rest (S i) w' v) as [[w'' evs] o]. simpl in *.
      intros [<-|I]; eauto.
    + intros [<-|[]]; eauto.
    + intros [<-|[]]; eauto.
Qed.

(** X8. When every [req] handler resolves, all of them are called, in
    registration order, and [proxyCacheReq] resolves to the answer of the
    hook registered last, whatever the hooks before it answered. *)
Theorem last_hook_decides (id : Id) (r : Request)
        (front : list (CacheHook W Request Id)) (last : CacheHook W Request Id)
        (v : value) (s : Sys W) :
  Forall (req_resolves id r) front ->
  (forall x, exists x', req last id r x = (x', Resolved v)) ->
  exists wf,
    proxyCacheReq (front ++ [last]) id r s
    = ({| world := wf;
          trace := (trace s ++ map ReqCalled (seq 0 (length front + 1)))%list |},
       Resolved v).
Proof.
  intros F L. rewrite proxyCacheReq_offered.
  destruct (offered_to_the_last id r front last v 0 (world s) VUndefined F L)
    as (wf & O).
  rewrite O. simpl. eauto.
Qed.

(** X9. When the [req] handler of a hook rejects, the hooks before it
    having resolved, [driver] rejects with the same error: the hooks
    registered after it are not offered the request, the transport is
    not called and no [res] handler is called. *)
Theorem req_failure_stops_before_transport
        (front back : list (CacheHook W Request Id)) (h : CacheHook W Request Id)
        (e : exn) (_driver : Request -> W -> W * outcome value)
        (r : Request) (s : Sys W) :
  Forall (req_resolves (objectHash r) r) front ->
  (forall x, exists x', req h (objectHash r) r x = (x', Rejected e)) ->
  exists wf,
    driver objectHash encodeParams (front ++ h :: back) _driver r s
    = ({| world := wf;
          trace := (trace s ++ map ReqCalled (seq 0 (length front + 1)))%list |},
       Rejected e).
Proof.
  intros F L. unfold driver. rewrite proxyCacheReq_offered.
  destruct (offered_to_the_failure (objectHash r) r front back h e 0 (world s)
                                   VUndefined F L) as (wf & O).
  rewrite O. simpl. eauto.
Qed.

(** X10. A [res] handler is never called unless the transport was called
    and resolved: if a run of [driver] calls one, the caller receives a
    response of the transport. *)
Theorem res_only_after_transport
        (cache : list (CacheHook W Request Id))
        (_driver : Request -> W -> W * outcome value)
        (r : Request) (w : W) (i : nat) :
  In (ResCalled i)
     (trace (fst (driver objectHash encodeParams cache _driver r (mkSys w [])))) ->
  In TransportCalled
     (trace (fst (driver objectHash encodeParams cache _driver r (mkSys w []))))
  /\ exists response,
      snd (driver objectHash encodeParams cache _driver r (mkSys w []))
      = Resolved response.
Proof.
  unfold driver. rewrite proxyCacheReq_offered. simpl.
  pose proof (offered_events (objectHash r) r cache 0 w VUndefined) as Ev.
  destruct (offered (objectHash r) r cache 0 w VUndefined) as [[w1 evs] o].
  simpl in *.
  assert (NoRes : forall l, (forall ev, In ev l -> ev = TransportCalled) ->
                            ~ In (ResCalled i) (evs ++ l)%list).
  { intros l Hl I. apply in_app_iff in I as [I|I].
    - destruct (Ev _ I) as (k & X). discriminate.
    - specialize (Hl _ I). discriminate. }
  destruct o as [cached|e|]; simpl.
  - destruct (is_undefined cached); simpl.
    + destruct (_driver (encodeParams r) w1) as [w2 [response|e|]]; simpl.
      * intros _. split; [|eauto].
        unfold proxyCacheRes, indexed. rewrite CacheSpec.pass_observed. simpl.
        apply in_app_iff. left. apply in_app_iff. right. now left.
      * intro I. elim (NoRes [TransportCalled]); [|exact I].
        intros ev [<-|[]]. reflexivity.
      * intro I. elim (NoRes [TransportCalled]); [|exact I].
        intros ev [<-|[]]. reflexivity.
    + intro I. elim (NoRes []); [intros ev []|]. now rewrite app_nil_r.
  - intro I. elim (NoRes []); [intros ev []|]. now rewrite app_nil_r.
  - intro I. elim (NoRes []); [intros ev []|]. now rewrite app_nil_r.
Qed.

End Requests.

Lemma hook_answering_resolves (v : value) (id r : string) :
  req_resolves id r (hook_answering v).
Proof. intro w. exists w, v. reflexivity. Qed.

Lemma last_hook_decides_witness :
  exists wf,
    proxyCacheReq [hook_answering (VStr "cached"); hook_answering VUndefined]
                  "/entities" "/entities" (mkSys tt [])
    = ({| world := wf; trace := [ReqCalled 0; ReqCalled 1] |},
       Resolved VUndefined).
Proof.
  exact (last_hook_decides unit string string "/entities" "/entities"
           [hook_answering (VStr "cached")] (hook_answering VUndefined)
           VUndefined (mkSys tt [])
           (Forall_cons _ (hook_answering_resolves _ _ _) (Forall_nil _))
           (fun x => ex_intro _ x eq_refl)).
Defined.

Lemma req_failure_stops_before_transport_witness :
  exists wf,
    driver (fun r => r) (fun r => r)
           [hook_answering VUndefined; hook_failing_req; hook_answering VUndefined]
           transport_ok "/entities" (mkSys tt [])
    = ({| world := wf; trace := [ReqCalled 0; ReqCalled 1] |},
       Rejected (Error "boom")).
Proof.
  exact (req_failure_stops_before_transport unit string string
           (fun r => r) (fun r => r)
           [hook_answering VUndefined] [hook_answering VUndefined]
           hook_failing_req (Error "boom") transport_ok "/entities" (mkSys tt [])
           (Forall_cons _ (hook_answering_resolves _ _ _) (Forall_nil _))
           (fun x => ex_intro _ x eq_refl)).
Defined.

Lemma res_only_after_transport_witness :
  In TransportCalled
     (trace (fst (driver (fun r => r) (fun r => r)
                         [hook_answering VUndefined] transport_ok "/entities"
                         (mkSys tt []))))
  /\ exists response,
      snd (driver (fun r => r) (fun r => r)
                  [hook_answering VUndefined] transport_ok "/entities"
                  (mkSys tt []))
      = Resolved response.
Proof.
  exact (res_only_after_transport unit string string (fun r => r) (fun r => r)
           [hook_answering VUndefined] transport_ok "/entities" tt 0
           (or_intror (or_intror (or_introl eq_refl)))).
Defined.

End CacheMore.

(* ================================================================== *)
(** * Further statements: the response interceptor *)
(* ================================================================== *)

Module EnvelopeSpec.
Import Envelope.

Lemma prop_object (o : value) (k : string) (v : value) :
  prop o k = v -> v <> VUndefined ->
  exists fields, o = VObj fields /\ lookup k fields = Some v.
Proof.
  destruct o as [| | | | |fields| |]; simpl; intros E D;
    try (subst; now elim D).
  exists fields. split; [reflexivity|].
  destruct (lookup k fields); [now subst | subst; now elim D].
Qed.

Lemma is_200_inv (c : value) : is_200 c = true -> c = VNum 200.
Proof.
  destruct c; simpl; try discriminate. intro E.
  apply Z.eqb_eq in E. now subst.
Qed.

(** X11. The interceptor returns only for a response whose [data] is an
    object carrying the number [200] under [code], and what it returns
    is the [data] of that object; every such response is answered so. *)
Theorem interceptor_returns_only_200 (response d : value) :
  response_interceptor response = Returns d
  <-> exists fields envelope,
      response = VObj fields
      /\ lookup "data" fields = Some (VObj envelope)
      /\ lookup "code" envelope = Some (VNum 200)
      /\ d = prop (VObj envelope) "data".
Proof.
  split.
  - unfold response_interceptor.
    set (envelope := prop (or_else response (VObj [])) "data").
    destruct (nullish envelope) eqn:N; [discriminate|].
    set (code := match prop envelope "code" with
                 | VUndefined => VNum 500
                 | c => c
                 end).
    destruct (is_200 code) eqn:C.
    + intro E. inversion E as [D]. apply is_200_inv in C.
      assert (PC : prop envelope "code" = VNum 200).
      { subst code. destruct (prop envelope "code"); try exact C; discriminate. }
      destruct (prop_object envelope "code" _ PC) as (env & Ee & Le);
        [discriminate|].
      assert (PE : prop (or_else response (VObj [])) "data" = VObj env)
        by (fold envelope; exact Ee).
      destruct (prop_object _ "data" _ PE) as (fields & Er & Lr);
        [discriminate|].
      assert (R : response = VObj fields).
      { unfold or_else in Er. destruct (truthy response); [exact Er|].
        inversion Er; subst. discriminate. }
      exists fields, env. repeat split; auto. now rewrite <- Ee.
    + intro E.
      repeat match type of E with
             | context [if ?b then _ else _] => destruct b
             end; discriminate.
  - intros (fields & env & -> & Ld & Lc & ->).
    unfold response_interceptor. simpl. rewrite Ld. simpl. rewrite Lc. reflexivity.
Qed.

(** X12. What the interceptor throws.  An [ApiError] never carries the
    code [200] nor an absent code: an envelope without [code] gives
    [500], and any other code, the string ["200"] included, is thrown as
    it is.  An envelope without [error] gives the message
    [Unknown error] and no details.  A response without an envelope is a
    [TypeError] of the language, not an [ApiError]. *)
Theorem interceptor_failure_carries_code :
  (forall response m c d,
      response_interceptor response = Throws (ApiError m c d) ->
      c <> VNum 200 /\ c <> VUndefined)
  /\ (forall fields envelope,
         lookup "data" fields = Some (VObj envelope) ->
         lookup "error" envelope = None ->
         (lookup "code" envelope = None ->
          response_interceptor (VObj fields)
          = Throws (ApiError "Unknown error" (VNum 500) (VArr [])))
         /\ (forall c,
                lookup "code" envelope = Some c ->
                c <> VUndefined -> is_200 c = false ->
                response_interceptor (VObj fields)
                = Throws (ApiError "Unknown error" c (VArr []))))
  /\ (forall response,
         nullish (prop (or_else response (VObj [])) "data") = true ->
         exists e, response_interceptor response = Throws (Native e)).
Proof.
  split; [|split].
  - intros response m c d. unfold response_interceptor.
    destruct (nullish _); [discriminate|].
    set (code := match prop _ "code" with
                 | VUndefined => VNum 500
                 | c => c
                 end).
    destruct (is_200 code) eqn:C; [discriminate|].
    destruct (nullish _); [discriminate|].
    intro E. inversion E; subst c. split.
    + intro X. rewrite X in C. discriminate.
    + subst code. destruct (prop _ "code"); discriminate.
  - intros fields envelope Ld Le. split.
    + intro Lc. unfold response_interceptor. simpl. rewrite Ld. simpl.
      rewrite Lc, Le. reflexivity.
    + intros c Lc D C. unfold response_interceptor. simpl. rewrite Ld. simpl.
      rewrite Lc, Le.
      destruct c; try (now elim D); simpl in *; rewrite ?C; reflexivity.
  - intros response N. unfold response_interceptor. rewrite N. eauto.
Qed.

(** The envelope [{ data: { code: 404 } }], and one whose code is the
    string ["200"]. *)
Lemma interceptor_failure_carries_code_witness :
  response_interceptor (VObj [("data", VObj [])])
  = Throws (ApiError "Unknown error" (VNum 500) (VArr []))
  /\ response_interceptor (VObj [("data", VObj [("code", VStr "200")])])
     = Throws (ApiError "Unknown error" (VStr "200") (VArr [])).
Proof.
  split.
  - exact (proj1 (proj1 (proj2 interceptor_failure_carries_code)
                        [("data", VObj [])] [] eq_refl eq_refl) eq_refl).
  - refine (proj2 (proj1 (proj2 interceptor_failure_carries_code)
                         [("data", VObj [("code", VStr "200")])]
                         [("code", VStr "200")] eq_refl eq_refl)
                  (VStr "200") eq_refl _ eq_refl).
    discriminate.
Defined.

End EnvelopeSpec.

(* ================================================================== *)
(** * Further statements: the encoding of query parameters *)
(* ================================================================== *)

Module ParamsSpec.
Import Params.

Lemma length_escape (c : ascii) : 1 <= String.length (escape c).
Proof.
  unfold escape.
  repeat match goal with
         | |- context [if ?b then _ else _] => destruct b
         end; simpl; lia.
Qed.

Lemma length_append (a b : string) :
  String.length (a ++ b) = String.length a + String.length b.
Proof. induction a as [|c a IH]; simpl; [reflexivity | now rewrite IH]. Qed.

Lemma length_escape_all (s : string) :
  String.length s <= String.length (escape_all s).
Proof.
  induction s as [|c s IH]; simpl; [lia|].
  rewrite length_append. pose proof (length_escape c). lia.
Qed.

(** Quoting makes a string longer, so no string is its own quotation. *)
Lemma JSON_quote_grows (s : string) : JSON_quote s <> s.
Proof.
  intro E. apply (f_equal String.length) in E. unfold JSON_quote in E.
  simpl in E. rewrite length_append in E. simpl in E.
  pose proof (length_escape_all s). lia.
Qed.

Lemma SStr_inj (a b : string) : PScalar (SStr a) = PScalar (SStr b) -> a = b.
Proof. intro E. now injection E. Qed.

Lemma encode_twice : forall p, encode (encode p) = encode p <-> quote_free p = true.
Proof.
  fix IH 1. intros [items|source flags|fields| |s].
  - simpl. split; reflexivity.
  - cbv [encode JSON_stringify quote_free]. split; [|discriminate]. intro E.
    apply (f_equal (fun p => match p with
                             | PObject ((_, x) :: _) => x
                             | _ => PNull
                             end)) in E.
    now elim (JSON_quote_grows _ (SStr_inj _ _ E)).
  - simpl. induction fields as [|[k v] rest IHf]; [split; reflexivity|].
    simpl. rewrite andb_true_iff, <- (IH v), <- IHf. split.
    + intro E. injection E as E1 E2. now rewrite E1, E2.
    + intros [E1 E2]. injection E2 as E2. now rewrite E1, E2.
  - simpl. split; reflexivity.
  - destruct s as [|[|]|n|s|]; cbv [encode JSON_stringify quote_free];
      split; try reflexivity; try discriminate;
      intro E; now elim (JSON_quote_grows _ (SStr_inj _ _ E)).
Qed.

(** X13. [queryParamEncode] is not idempotent.  Encoding what is already
    encoded gives the same object exactly when the object holds, outside
    arrays, no string, no number, no boolean and no regular expression:
    each of these is quoted once more by the second pass.  It holds at
    every depth, for a field as for the whole object. *)
Theorem second_encoding_quotes_again (obj : list (string * param)) :
  (queryParamEncode (queryParamEncode obj) = queryParamEncode obj
   <-> forallb (fun kv => quote_free (snd kv)) obj = true)
  /\ (forall p, encode (encode p) = encode p <-> quote_free p = true).
Proof.
  split; [|exact encode_twice].
  unfold queryParamEncode. induction obj as [|[k v] rest IHo]; simpl.
  - split; reflexivity.
  - rewrite andb_true_iff, <- (encode_twice v), <- IHo. split.
    + intro E. injection E as E1 E2. now split.
    + intros [E1 E2]. now rewrite E1, E2.
Qed.

Lemma encode_is_encoded : forall p, encoded (encode p) = true.
Proof.
  fix IH 1. intros [items|source flags|fields| |s].
  - reflexivity.
  - reflexivity.
  - simpl. induction fields as [|[k v] rest IHf]; [reflexivity|].
    simpl. rewrite (IH v). exact IHf.
  - reflexivity.
  - destruct s as [|[|]| | |]; reflexivity.
Qed.

(** X14. After [queryParamEncode], at every depth outside arrays, a
    field holds an object, a string or [undefined]: no [null], no
    regular expression, no number and no boolean is left. *)
Theorem encode_leaves_strings (obj : list (string * param)) :
  Forall (fun kv => encoded (snd kv) = true) (queryParamEncode obj)
  /\ encoded (PObject (queryParamEncode obj)) = true.
Proof.
  assert (F : Forall (fun kv => encoded (snd kv) = true) (queryParamEncode obj)).
  { unfold queryParamEncode. apply Forall_map. apply Forall_forall.
    intros [k v] _. simpl. apply encode_is_encoded. }
  split; [exact F|]. simpl.
  induction F as [|[k v] l Hv Hl IH]; [reflexivity|].
  simpl in *. now rewrite Hv.
Qed.

End ParamsSpec.

(* ================================================================== *)
(** * Further statements: the realtime client *)
(* ================================================================== *)

Module RealtimeSpec.
Import Client Realtime Sample.

Section Invariants.
Context `{Jwt}.

Lemma token_eqb_neq (a b : token) : a <> b -> token_eqb a b = false.
Proof.
  destruct a as [x|], b as [y|]; simpl; intro D; try reflexivity.
  - destruct (String.eqb_spec x y) as [->|_]; [now elim D | reflexivity].
  - now elim D.
Qed.

Lemma connect_flags (r : ReduxClient) :
  _isConnected r && _isConnecting r = false ->
  _isConnected (connect r) && _isConnecting (connect r) = false.
Proof.
  unfold connect.
  destruct (token_eqb (_connectedAuth r) (_token r)
            && (_isConnected r || _isConnecting r)); simpl; auto.
Qed.

(** X15. The client is never connected and connecting at once. *)
Theorem never_connected_and_connecting (r : ReduxClient) :
  reachable r -> _isConnected r && _isConnecting r = false.
Proof.
  induction 1 as [|r _ IH|r v _ IH|r _ IH _|r _ IH _|r _ IH _]; simpl.
  - reflexivity.
  - now apply connect_flags.
  - unfold set_token. simpl. destruct (_isConnected r) eqn:C; simpl.
    + apply connect_flags. simpl. exact IH.
    + reflexivity.
  - reflexivity.
  - reflexivity.
  - apply andb_false_r.
Qed.

Lemma live_app (l1 l2 : list socket_effect) (alive : list nat) :
  live (l1 ++ l2) alive = live l2 (live l1 alive).
Proof.
  revert alive. induction l1 as [|[id|id|id a|id] l1 IH]; intro alive; simpl;
    auto.
Qed.

(** The socket the client holds, as a list. *)
Lemma connect_live (r : ReduxClient) :
  live (sockets r) [] = match _socket r with Some s => [s] | None => [] end ->
  live (sockets (connect r)) []
  = match _socket (connect r) with Some s => [s] | None => [] end.
Proof.
  intro L. unfold connect.
  destruct (token_eqb (_connectedAuth r) (_token r)
            && (_isConnected r || _isConnecting r)); [exact L|]. simpl.
  destruct (_socket r) as [s|]; rewrite !live_app, L; simpl.
  - destruct (Nat.eq_dec s s) as [_|D]; [reflexivity | now elim D].
  - reflexivity.
Qed.

(** X16. At most one socket is alive: at every moment the sockets opened
    and not yet disconnected are the one socket the client holds, or
    none when it holds none. *)
Theorem one_live_socket (r : ReduxClient) :
  reachable r ->
  live (sockets r) [] = match _socket r with Some s => [s] | None => [] end.
Proof.
  induction 1 as [|r _ IH|r v _ IH|r _ IH _|r _ IH _|r _ IH _]; simpl; auto.
  - now apply connect_live.
  - unfold set_token. simpl. destruct (_isConnected r); [|exact IH].
    apply connect_live. exact IH.
Qed.

(** X17. A token assigned while the client is not connected, be it
    connecting under another token, only replaces the token: no socket
    is opened or closed, and when the socket in flight connects the
    client is connected under the identity it was opened with, not under
    the token it holds. *)
Theorem token_set_while_connecting_is_stale (r : ReduxClient) (v : token) :
  _isConnected r = false ->
  _connectedAuth r <> v ->
  let r' := _connect (set_token v r) in
  _isConnected r' = true
  /\ _token r' = v
  /\ _connectedAuth r' = _connectedAuth r
  /\ _connectedAuth r' <> _token r'
  /\ sockets r' = sockets r
  /\ _socket r' = _socket r.
Proof.
  intros C D r'. subst r'. unfold set_token. simpl. rewrite C. simpl.
  repeat split; auto.
Qed.

(** X18. A token assigned while the client is connected, and different
    from the one the connection was opened with, reconnects at once: the
    socket held is unwired and disconnected, a new one is opened with the
    bearer of the new token, or without header when the token is falsy,
    and the client is connecting under the new identity. *)
Theorem token_change_reconnects (r : ReduxClient) (v : token) (s : nat) :
  _isConnected r = true ->
  _socket r = Some s ->
  _connectedAuth r <> v ->
  let r' := set_token v r in
  let n := length (sockets r) in
  _isConnected r' = false
  /\ _isConnecting r' = true
  /\ _token r' = v
  /\ _connectedAuth r' = v
  /\ _socket r' = Some n
  /\ sockets r'
     = (sockets r
        ++ [Unwired s; Disconnected s;
            Opened n (if truthy_token v
                      then option_map (fun t => ("Bearer " ++ t)%string) v
                      else None);
            Wired n])%list.
Proof.
  intros C S D r' n. subst r' n. unfold set_token. simpl. rewrite C.
  unfold connect. simpl. rewrite (token_eqb_neq _ _ D). simpl. rewrite S.
  repeat split. rewrite <- app_assoc. simpl.
  destruct v as [t|]; simpl; [|reflexivity].
  destruct (negb (t =? "")); reflexivity.
Qed.

(** X19. [connect] is idempotent from every state: of two calls in a
    row, whatever the first one did, the second one changes nothing and
    touches no socket. *)
Theorem connect_is_idempotent (r : ReduxClient) :
  connect (connect r) = connect r
  /\ sockets (connect (connect r)) = sockets (connect r).
Proof.
  pose proof (ClientSpec.connect_twice r) as E. now rewrite E.
Qed.

End Invariants.

Section Examples.
#[local] Existing Instance Sample.jwt.

Lemma established_reachable : reachable established.
Proof.
  unfold established. apply reach_on_connect.
  - apply reach_connect, reach_new.
  - discriminate.
Qed.

Lemma never_connected_and_connecting_witness :
  _isConnected (set_token (Some "valid.token") established)
  && _isConnecting (set_token (Some "valid.token") established) = false.
Proof.
  exact (never_connected_and_connecting _
           (reach_token _ (Some "valid.token") established_reachable)).
Defined.

Lemma one_live_socket_witness :
  live (sockets (set_token (Some "valid.token") established)) [] = [2].
Proof.
  exact (one_live_socket _
           (reach_token _ (Some "valid.token") established_reachable)).
Defined.

(** [connect()], then a token before the socket has connected. *)
Lemma token_set_while_connecting_is_stale_witness :
  let r' := _connect (set_token (Some "valid.token") (connect new_ReduxClient)) in
  _isConnected r' = true
  /\ _token r' = Some "valid.token"
  /\ _connectedAuth r' = None
  /\ _connectedAuth r' <> _token r'
  /\ sockets r' = [Opened 0 None; Wired 0]
  /\ _socket r' = Some 0.
Proof.
  refine (token_set_while_connecting_is_stale (connect new_ReduxClient)
            (Some "valid.token") eq_refl _).
  discriminate.
Defined.

Lemma token_change_reconnects_witness :
  let r' := set_token (Some "valid.token") established in
  _isConnected r' = false
  /\ _isConnecting r' = true
  /\ _token r' = Some "valid.token"
  /\ _connectedAuth r' = Some "valid.token"
  /\ _socket r' = Some 2
  /\ sockets r'
     = [Opened 0 None; Wired 0; Unwired 0; Disconnected 0;
        Opened 2 (Some "Bearer valid.token"); Wired 2].
Proof.
  refine (token_change_reconnects established (Some "valid.token") 0
            eq_refl eq_refl _).
  discriminate.
Defined.

End Examples.
End RealtimeSpec.

(* ================================================================== *)
(** * Further statements: the session *)
(* ================================================================== *)

Module SessionSpec.
Import Client Session Sample.

Section Coherent.
Context `{Jwt}.

Lemma connect_token (r : ReduxClient) : _token (connect r) = _token r.
Proof.
  unfold connect.
  destruct (token_eqb (_connectedAuth r) (_token r)
            && (_isConnected r || _isConnecting r)); reflexivity.
Qed.

Lemma set_token_token (v : token) (r : ReduxClient) : _token (set_token v r) = v.
Proof.
  unfold set_token. simpl. destruct (_isConnected r); [|reflexivity].
  now rewrite connect_token.
Qed.

Lemma coherent_signed_out (a : Credentials) (c : ApiClient) :
  truthy_token (accessToken a) = false -> coherent (signed_out a c).
Proof.
  intro F. unfold coherent, signed_out. simpl. rewrite set_token_token.
  split; [reflexivity|]. split.
  - destruct (persist c) eqn:P; simpl; [reflexivity | rewrite P; discriminate].
  - destruct (accessToken a) as [t|]; [|auto]. simpl in F. rewrite F. auto.
Qed.

Lemma coherent_emit (name : string) (payload : option Profile) (c : ApiClient) :
  coherent c -> coherent (with_super (emit name payload) c).
Proof. unfold coherent. simpl. auto. Qed.

Lemma coherent_signed_in (now : Z) (a : Credentials) (t : string) (p : Profile)
      (c : ApiClient) :
  truthy_token (Some t) = true -> jwtDecode t = Normal p ->
  coherent (signed_in now a t p c).
Proof.
  intros T D. unfold coherent, signed_in. simpl. rewrite set_token_token.
  split; [reflexivity|]. split.
  - destruct (persist c) eqn:P; simpl; [reflexivity | rewrite P; discriminate].
  - unfold truthy_token in T. rewrite T. repeat split; eauto.
Qed.

Lemma coherent_without_header (c : ApiClient) :
  coherent c -> truthy_token (_accessToken c) = false ->
  coherent (with_Authorization None c).
Proof.
  unfold coherent. destruct c as [r a rt u tm h ps stg]. simpl.
  intros (T & P & S) F. split; [exact T|]. split; [exact P|].
  destruct a as [t|]; simpl in F.
  - rewrite F in *. destruct S as (_ & S). now split.
  - destruct S as (_ & S). now split.
Qed.

Lemma coherent_timed_out (a : Credentials) (t : string) (p : Profile)
      (c : ApiClient) :
  coherent (timed_out a t p c).
Proof.
  unfold timed_out.
  apply coherent_without_header; [|reflexivity].
  apply coherent_emit.
  apply coherent_signed_out. reflexivity.
Qed.

Lemma setCredentials_undecodable (now : Z) (d : nat) (a : Credentials)
      (t : string) (e : exn) (c : ApiClient) :
  accessToken a = Some t -> truthy_token (Some t) = true ->
  jwtDecode t = Throw e ->
  setCredentials now (S d) a c
  = Some (with_super (set_token (Some t))
            (with_credentials (Some t) (refreshToken a)
               (if persist c
                then with_storage (Some (Some t, refreshToken a)) c
                else c)),
          Throw e).
Proof.
  intros A T D. simpl. unfold setCredentials_body, _refreshCredentials.
  rewrite A. simpl _accessToken. unfold decode. rewrite T, D. reflexivity.
Qed.

(** X20. Whenever [setCredentials] returns, the session is coherent: the
    token of the realtime client is the access token; the header is the
    bearer of a truthy token and absent otherwise; the profile is what
    the token decodes to, or [null]; the beat is armed exactly with a
    truthy token; and where credentials are persisted, what is stored is
    the pair the client holds. *)
Theorem setCredentials_leaves_coherent (now : Z) (depth : nat)
        (a : Credentials) (c c' : ApiClient) :
  2 <= depth ->
  setCredentials now depth a c = Some (c', Normal tt) ->
  coherent c'.
Proof.
  intro L. destruct depth as [|[|d]]; try lia.
  destruct (truthy_token (accessToken a)) eqn:T.
  - destruct (accessToken a) as [t|] eqn:A; [|discriminate].
    destruct (jwtDecode t) as [p|e] eqn:D.
    + destruct (expired now p) eqn:X.
      * rewrite (ClientSpec.setCredentials_expired now d a t p c A T D X).
        intro E; inversion E; subst. apply coherent_timed_out.
      * rewrite (ClientSpec.setCredentials_valid now (S d) a t p c A T D X).
        intro E; inversion E; subst. now apply coherent_signed_in.
    + rewrite (setCredentials_undecodable now (S d) a t e c A T D).
      discriminate.
  - rewrite (ClientSpec.setCredentials_anonymous now (S d) a c T).
    intro E; inversion E; subst. now apply coherent_signed_out.
Qed.

(** X21. When the beat fires on a coherent session it returns and leaves
    a coherent session.  A session whose profile has not expired is
    kept, tokens untouched, and the timer is armed again; a session whose
    profile has expired is logged out: both tokens [null] and [logout]
    emitted with the profile. *)
Theorem beat_keeps_or_ends_session (now : Z) (d : nat) (c : ApiClient) :
  coherent c ->
  exists c',
    _sessionBeat now (setCredentials now (S d)) c = Some (c', Normal tt)
    /\ coherent c'
    /\ forall t p,
        _accessToken c = Some t -> truthy_token (Some t) = true ->
        _userProfile c = Some p ->
        (expired now p = false ->
         _accessToken c' = Some t
         /\ _refreshToken c' = _refreshToken c
         /\ _daemonSessionExpired c' = Armed (beat_delay now p))
        /\ (expired now p = true ->
            _accessToken c' = None
            /\ _refreshToken c' = None
            /\ events (super c')
               = (events (super c) ++ [Emit "logout" (Some p)])%list).
Proof.
  intros (Ctok & Csto & Cmatch).
  destruct (truthy_token (_accessToken c)) eqn:T.
  - destruct (_accessToken c) as [t|] eqn:A; [|discriminate].
    rewrite T in Cmatch. destruct Cmatch as (Ch & (p & Dp & Cp) & (dl & Ct)).
    unfold _sessionBeat. simpl _accessToken. simpl _userProfile.
    rewrite A, T, Cp.
    destruct (expired now p) eqn:X.
    + rewrite ClientSpec._localLogout_signed_in by (simpl; now rewrite A).
      eexists. split; [reflexivity|]. split.
      * apply coherent_emit. now apply coherent_signed_out.
      * intros t' p' Et _ Ep. inversion Et; inversion Ep; subst.
        split; [intro; congruence|]. intros _. simpl. repeat split.
        rewrite ClientSpec.set_token_events. simpl. rewrite Cp.
        now destruct (persist c).
    + eexists. split; [reflexivity|]. split.
      * pose proof T as T'. simpl in T'.
        unfold coherent. simpl. rewrite A, T'. repeat split; eauto.
      * intros t' p' Et _ Ep. inversion Et; inversion Ep; subst.
        split; [|intro; congruence]. intros _. simpl. auto.
  - rewrite ClientSpec._sessionBeat_anonymous by exact T.
    eexists. split; [reflexivity|]. split.
    + unfold coherent. simpl. repeat split; auto.
      destruct (_accessToken c) as [t|]; simpl in *;
        [rewrite T in *|]; tauto.
    + intros t p A T'. rewrite A in T. rewrite T in T'. discriminate.
Qed.

(** X22. A truthy token that does not decode makes [setCredentials]
    throw the decoder's error after the token has been taken: the client
    holds it, the realtime client holds it, it has been persisted where
    credentials are persisted, while the header and the profile are
    those of before. *)
Theorem undecodable_token_is_kept (now : Z) (d : nat) (a : Credentials)
        (t : string) (e : exn) (c : ApiClient) :
  accessToken a = Some t -> truthy_token (Some t) = true ->
  jwtDecode t = Throw e ->
  exists c1,
    setCredentials now (S d) a c = Some (c1, Throw e)
    /\ _accessToken c1 = Some t
    /\ _refreshToken c1 = refreshToken a
    /\ _token (super c1) = Some t
    /\ Authorization c1 = Authorization c
    /\ _userProfile c1 = _userProfile c
    /\ (persist c = true -> storage c1 = Some (Some t, refreshToken a)).
Proof.
  intros A T D. eexists. split.
  - apply (setCredentials_undecodable now d a t e c A T D).
  - simpl. rewrite set_token_token.
    destruct (persist c); repeat split; auto; discriminate.
Qed.

(** X23. [login] logs the previous session out before asking the
    server: when the request is rejected, the rejection is what the
    caller gets and the client holds no usable access token; if it held
    one, both tokens are [null], the header is gone and [logout] has
    been emitted with the previous profile. *)
Theorem failed_login_ends_previous_session
        (W : Type) (driver : W -> W * outcome Credentials)
        (now : Z) (depth : nat) (w w' : W) (e : exn) (c : ApiClient) :
  1 <= depth ->
  driver w = (w', Rejected e) ->
  exists c1,
    login driver now depth w c = Some (w', c1, Rejected e)
    /\ truthy_token (_accessToken c1) = false
    /\ (truthy_token (_accessToken c) = true ->
        _accessToken c1 = None
        /\ _refreshToken c1 = None
        /\ Authorization c1 = None
        /\ _userProfile c1 = None
        /\ events (super c1)
           = (events (super c) ++ [Emit "logout" (_userProfile c)])%list).
Proof.
  intros L D. destruct depth as [|d]; [lia|]. unfold login.
  destruct (truthy_token (_accessToken c)) eqn:T.
  - rewrite (ClientSpec._localLogout_signed_in now d c T), D.
    eexists. split; [reflexivity|]. simpl. split; [reflexivity|].
    intros _. repeat split.
    rewrite ClientSpec.set_token_events. now destruct (persist c).
  - rewrite (ClientSpec._localLogout_anonymous _ c T), D.
    eexists. split; [reflexivity|]. split; [exact T | discriminate].
Qed.

(** X24. The delay the beat is armed with lies within the time left: for
    a profile that expires at [t], later than now, it is at least one
    millisecond and at most [t - now], so the beat fires again no later
    than the profile expires. *)
Theorem beat_delay_within_remaining (now t : Z) (p : Profile) :
  sessionExpires p = Some t ->
  (now < t)%Z ->
  exists delay,
    beat_delay now p = Some delay /\ (0 < delay <= t - now)%Z.
Proof.
  intros S L. unfold beat_delay. rewrite S. eexists. split; [reflexivity|].
  split.
  - apply Z.div_str_pos. lia.
  - assert ((3 * (t - now) + 2) / 4 < (t - now) + 1)%Z
      by (apply Z.div_lt_upper_bound; lia).
    lia.
Qed.


End Coherent.

Section Examples.
#[local] Existing Instance Sample.jwt.

Lemma alice_coherent : coherent alice.
Proof.
  unfold coherent. simpl. split; [reflexivity|]. split; [discriminate|].
  split; [reflexivity|]. split; [|eauto].
  exists 5000%Z. split; reflexivity.
Qed.

Lemma setCredentials_leaves_coherent_witness : coherent alice.
Proof.
  exact (setCredentials_leaves_coherent 2000 2 valid_pair anonymous alice
                                        (le_n 2) eq_refl).
Defined.

(** The beat on [alice] at time 3000, and at time 6000. *)
Lemma beat_keeps_or_ends_session_witness :
  (exists c',
      _sessionBeat 3000 (setCredentials 3000 1) alice = Some (c', Normal tt)
      /\ coherent c'
      /\ _accessToken c' = Some "valid.token"
      /\ _daemonSessionExpired c' = Armed (Some 1500%Z))
  /\ (exists c',
         _sessionBeat 6000 (setCredentials 6000 1) alice = Some (c', Normal tt)
         /\ coherent c'
         /\ _accessToken c' = None
         /\ events (super c')
            = [Emit "login" (Some 5000%Z); Emit "logout" (Some 5000%Z)]).
Proof.
  pose proof alice_coherent as A.
  split.
  - destruct (beat_keeps_or_ends_session 3000 0 alice A) as (c' & E & C & P).
    exists c'. split; [exact E|]. split; [exact C|].
    destruct (proj1 (P "valid.token" 5000%Z eq_refl eq_refl eq_refl) eq_refl)
      as (P1 & _ & P3).
    split; [exact P1 | exact P3].
  - destruct (beat_keeps_or_ends_session 6000 0 alice A) as (c' & E & C & P).
    exists c'. split; [exact E|]. split; [exact C|].
    destruct (proj2 (P "valid.token" 5000%Z eq_refl eq_refl eq_refl) eq_refl)
      as (P1 & _ & P3).
    split; [exact P1 | exact P3].
Defined.

Lemma undecodable_token_is_kept_witness :
  exists c1,
    setCredentials 2000 1 {| accessToken := Some "garbage"; refreshToken := None |}
                   alice
    = Some (c1, Throw (InvalidTokenError "Invalid token specified"))
    /\ _accessToken c1 = Some "garbage"
    /\ _refreshToken c1 = None
    /\ _token (super c1) = Some "garbage"
    /\ Authorization c1 = Some "Bearer valid.token"
    /\ _userProfile c1 = Some 5000%Z
    /\ (persist alice = true -> storage c1 = Some (Some "garbage", None)).
Proof.
  exact (undecodable_token_is_kept 2000 0
           {| accessToken := Some "garbage"; refreshToken := None |}
           "garbage" (InvalidTokenError "Invalid token specified") alice
           eq_refl eq_refl eq_refl).
Defined.

Lemma failed_login_ends_previous_session_witness :
  exists c1,
    login (fun w : unit => (w, Rejected (Error "Unauthorized"))) 2000 1 tt alice
    = Some (tt, c1, Rejected (Error "Unauthorized"))
    /\ truthy_token (_accessToken c1) = false
    /\ (truthy_token (_accessToken alice) = true ->
        _accessToken c1 = None
        /\ _refreshToken c1 = None
        /\ Authorization c1 = None
        /\ _userProfile c1 = None
        /\ events (super c1)
           = (events (super alice) ++ [Emit "logout" (_userProfile alice)])%list).
Proof.
  exact (failed_login_ends_previous_session unit
           (fun w : unit => (w, Rejected (Error "Unauthorized")))
           2000 1 tt tt (Error "Unauthorized") alice (le_n 1) eq_refl).
Defined.

Lemma beat_delay_within_remaining_witness :
  exists delay,
    beat_delay 2000 (5000%Z : Profile) = Some delay
    /\ (0 < delay <= 5000 - 2000)%Z.
Proof.
  exact (beat_delay_within_remaining 2000 5000 (5000%Z : Profile) eq_refl eq_refl).
Defined.

End Examples.
End SessionSpec.
